(** * Memory-game session engine ([src/__main__.py])

    A shallow embedding of the tile board, the reveal handler
    [open_game_pic], the session registry [_token2game] and the
    serialisation through [response_model=Game], followed by the properties
    of the natural-language specification that were checked against it. *)

From Stdlib Require Import ZArith List Lia.
From stdpp Require Import gmap strings list fin_maps.

Local Open Scope Z_scope.

(** ** Data model *)

(** [class ImgStatus(str, Enum)], lines 27-31. *)
Inductive ImgStatus : Set := CLOSED | TEMP_OPEN | OPEN | CLOSING.

#[global] Instance ImgStatus_eq_dec : EqDecision ImgStatus.
Proof. solve_decision. Defined.

(** The enum is a [str] enum: its value is what a response carries. *)
Definition ImgStatus_value (s : ImgStatus) : string :=
  match s with
  | CLOSED => "CLOSED"
  | TEMP_OPEN => "TEMP_OPEN"
  | OPEN => "OPEN"
  | CLOSING => "CLOSING"
  end.

(** [class Item(BaseModel)], lines 34-39. *)
Record Item : Set := mkItem { photoId : Z; status : ImgStatus }.

#[global] Instance Item_eq_dec : EqDecision Item.
Proof. solve_decision. Defined.

(** The default of the [status] field, first argument of [Field(...)] on
    line 37. *)
Definition Item_status_default : ImgStatus := CLOSING.

(** [Item(photoId=p)]: the only way the program builds a tile. *)
Definition new_Item (p : Z) : Item :=
  {| photoId := p; status := Item_status_default |}.

Definition with_status (s : ImgStatus) (it : Item) : Item :=
  {| photoId := photoId it; status := s |}.

(** A board is [List[List[Item]]]. *)
Abbreviation Board := (list (list Item)).

(** ** Board construction ([Game.createItems], lines 49-58) *)

(** [range(n)] as a list of Python ints. *)
Definition range (n : nat) : list Z := Z.of_nat <$> seq 0 n.

(** [l * k] on Python lists: [k] copies of [l] one after the other. *)
Definition list_mul {A} (l : list A) (k : nat) : list A :=
  concat (replicate k l).

(** [l[a:b]] for non-negative bounds. *)
Definition slice {A} (l : list A) (a b : nat) : list A :=
  take (b - a) (drop a l).

(** [x[i], x[j] = x[j], x[i]]: both reads happen first, then [x[i]] is
    written, then [x[j]]. *)
Definition swap {A} (x : list A) (i j : nat) : list A :=
  match x !! i, x !! j with
  | Some a, Some b => <[j := a]> (<[i := b]> x)
  | _, _ => x
  end.

(** [random.shuffle(x)] is the library's Fisher-Yates loop
    [for i in reversed(range(1, len(x))): j = randbelow(i + 1); swap].
    The random source is the parameter [rnd]: the draw made at index [i] is
    [rnd i], reduced into [0 .. i]. *)
Fixpoint shuffle_from {A} (rnd : nat → nat) (i : nat) (x : list A) : list A :=
  match i with
  | O => x
  | S i' =>
      let j := (rnd i mod (i + 1))%nat in
      shuffle_from rnd i' (swap x i j)
  end.

Definition shuffle {A} (rnd : nat → nat) (x : list A) : list A :=
  shuffle_from rnd (length x - 1) x.

(** [photos = list(range(8)) * 2], line 53. *)
Definition photos0 : list Z := list_mul (range 8) 2.

(** The validator [createItems(cls, v)]: a non-empty [v] is returned as it
    is, otherwise the shuffled ids are cut into four rows of four. *)
Definition createItems (rnd : nat → nat) (v : Board) : Board :=
  match v with
  | _ :: _ => v
  | [] =>
      let photos := shuffle rnd photos0 in
      (λ i, new_Item <$> slice photos (i * 4) ((i + 1) * 4)) <$> seq 0 4
  end.

(** ** Sessions *)

(** [class Game(BaseModel)], lines 42-47: the fields a response carries.
    [started_at] is the reading of [time.time], a float in the source; the
    code stores and copies it and never computes with it, so an integer
    stands for the reading here and nothing below depends on more than its
    being copied. *)
Record Game : Type := mkGame {
  g_token : string;
  g_items : Board;
  g_ended : bool;
  g_started_at : Z;
  g_score : Z
}.

(** [class GameWithExtras(Game)], lines 61-64.  [ended_event] is the flag
    of the [threading.Event]; [end_timer] is [None] or the interval, in
    seconds, of the armed [threading.Timer]. *)
Record GameWithExtras : Type := mkGameWithExtras {
  token : string;
  items : Board;
  ended : bool;
  started_at : Z;
  score : Z;
  ended_event : bool;
  end_timer : option Z
}.

Definition set_items (its : Board) (g : GameWithExtras) : GameWithExtras :=
  mkGameWithExtras (token g) its (ended g) (started_at g) (score g)
                   (ended_event g) (end_timer g).

Definition set_score (s : Z) (g : GameWithExtras) : GameWithExtras :=
  mkGameWithExtras (token g) (items g) (ended g) (started_at g) s
                   (ended_event g) (end_timer g).

Definition set_ended (b : bool) (g : GameWithExtras) : GameWithExtras :=
  mkGameWithExtras (token g) (items g) b (started_at g) (score g)
                   (ended_event g) (end_timer g).

Definition set_ended_event (b : bool) (g : GameWithExtras) : GameWithExtras :=
  mkGameWithExtras (token g) (items g) (ended g) (started_at g) (score g)
                   b (end_timer g).

Definition set_end_timer (t : option Z) (g : GameWithExtras) : GameWithExtras :=
  mkGameWithExtras (token g) (items g) (ended g) (started_at g) (score g)
                   (ended_event g) t.

(** [GameWithExtras()]: [tok] is the draw of [secrets.token_urlsafe], [now]
    the reading of [time.time], [rnd] the random source of the shuffle; the
    [items] default [[]] goes through the validator. *)
Definition new_GameWithExtras (tok : string) (now : Z) (rnd : nat → nat)
  : GameWithExtras :=
  {| token := tok;
     items := createItems rnd [];
     ended := false;
     started_at := now;
     score := 0;
     ended_event := false;
     end_timer := None |}.

(** ** The reveal algorithm on one session ([open_game_pic], lines 130-172) *)

(** What a call can raise.  [HTTPException] carries the status code and the
    message of its detail; [RequestValidationError] is the rejection of a
    [Query(..., ge=0, le=3)] argument; [DanglingRef] is not a Python outcome:
    it marks a reference that names no object, which no well-formed world
    contains. *)
Inductive exn : Type :=
  | HTTPException (status_code : Z) (message : string)
  | RequestValidationError
  | KeyError (key : string)
  | IndexError
  | DanglingRef.

Definition NotFound : exn := HTTPException 404 "Game not found".
Definition Conflict : exn := HTTPException 409 "Item already opened".

(** A tile is referred to by its place: every [Item] of a board is an object
    of its own, so a place and a reference to the object are the same. *)
Definition Pos : Set := (nat * nat)%type.

(** [game.items[row][col]]. *)
Definition get_item (its : Board) (p : Pos) : option Item :=
  its !! p.1 ≫= (.!! p.2).

(** [item.status = s] for the item at place [p]. *)
Definition set_status (s : ImgStatus) (p : Pos) (its : Board) : Board :=
  alter (alter (with_status s) p.2) p.1 its.

(** The inner loop of lines 139-143 over the row numbered [r], from column
    [c] on.  [temp_opened] is the list being appended to. *)
Fixpoint scan_row (r c : nat) (item_row : list Item) (temp_opened : list Pos)
  : list Item * list Pos :=
  match item_row with
  | [] => ([], temp_opened)
  | item :: rest =>
      let temp_opened :=
        if decide (status item = TEMP_OPEN) then temp_opened ++ [(r, c)]
        else temp_opened in
      let item :=
        if decide (status item = CLOSING) then with_status CLOSED item
        else item in
      let '(rest', temp_opened) := scan_row r (S c) rest temp_opened in
      (item :: rest', temp_opened)
  end.

(** The outer loop of lines 138-143. *)
Fixpoint scan_rows (r : nat) (its : Board) (temp_opened : list Pos)
  : Board * list Pos :=
  match its with
  | [] => ([], temp_opened)
  | item_row :: rest =>
      let '(item_row', temp_opened) := scan_row r 0 item_row temp_opened in
      let '(rest', temp_opened) := scan_rows (S r) rest temp_opened in
      (item_row' :: rest', temp_opened)
  end.

Definition scan (its : Board) : Board * list Pos := scan_rows 0 its [].

(** Lines 162-167: the list [opened], of which only the length is used. *)
Definition opened (its : Board) : list Item :=
  filter (λ it, status it = OPEN) (concat its).

(** Lines 148-160: the two first entries of [temp_opened] are resolved.
    They are references to tiles of the board, so both reads succeed; the
    last case of the match is never taken (lemma [temp_opened_scanned]). *)
Definition resolve (p1 p2 : Pos) (g : GameWithExtras) : GameWithExtras :=
  match get_item (items g) p1, get_item (items g) p2 with
  | Some item1, Some item2 =>
      if decide (photoId item1 = photoId item2) then
        let its := set_status OPEN p2 (set_status OPEN p1 (items g)) in
        set_score (score g + 30) (set_items its g)
      else
        let g := set_score (score g - 10) g in
        let its := set_status CLOSING p2 (set_status CLOSING p1 (items g)) in
        set_items its g
  | _, _ => g
  end.

(** The body of [open_game_pic] on the session object [game], up to the call
    of [game.end()]: the result is the mutated object and whether [end] is
    called.  When the body raises, the object has not been written to. *)
Definition open_pic (row col : nat) (game : GameWithExtras)
  : exn + GameWithExtras * bool :=
  match get_item (items game) (row, col) with
  | None => inl IndexError
  | Some item =>
      if decide (status item = OPEN ∨ status item = TEMP_OPEN) then inl Conflict
      else
        let marked := set_status TEMP_OPEN (row, col) (items game) in
        let '(scanned, temp_opened) := scan marked in
        let game := set_items scanned game in
        match temp_opened with
        | item1 :: item2 :: _ =>
            let game := resolve item1 item2 game in
            inr (game, bool_decide (length (opened (items game)) = 16%nat))
        | _ => inr (game, false)
        end
  end.

(** ** The shared registry and the handlers *)

(** Session objects live in [heap] and are named by their index; the class
    attribute [_token2game] maps a token to the object stored under it, so
    the object a handler mutates is the one the registry holds. *)
Record World : Type := mkWorld {
  heap : list GameWithExtras;
  token2game : gmap string nat
}.

Definition empty_world : World := {| heap := []; token2game := ∅ |}.

(** A handler's outcome: what it returns or raises, and the world it leaves. *)
Definition Outcome (A : Type) : Type := ((exn + A) * World)%type.

(** In-place mutation of the object [self]. *)
Definition update_obj (self : nat) (g : GameWithExtras) (w : World) : World :=
  {| heap := <[self := g]> (heap w); token2game := token2game w |}.

(** [store(self)], lines 66-67. *)
Definition store (self : nat) (w : World) : Outcome () :=
  match heap w !! self with
  | None => (inl DanglingRef, w)
  | Some g =>
      (inr (), {| heap := heap w;
                  token2game := <[token g := self]> (token2game w) |})
  end.

(** [end(self)], lines 69-73.  [dict.pop] of an absent key raises
    [KeyError], after the two assignments have been made. *)
Definition end_ (self : nat) (w : World) : Outcome () :=
  match heap w !! self with
  | None => (inl DanglingRef, w)
  | Some g =>
      if ended g then (inr (), w)
      else
        let g := set_ended true g in
        let g := set_ended_event true g in
        let w := update_obj self g w in
        match token2game w !! token g with
        | None => (inl (KeyError (token g)), w)
        | Some _ =>
            (inr (), {| heap := heap w;
                        token2game := delete (token g) (token2game w) |})
        end
  end.

(** [start(self)], lines 75-77: the timer is armed; its firing is the
    event [timer_fires] below. *)
Definition start (self : nat) (w : World) : Outcome () :=
  match heap w !! self with
  | None => (inl DanglingRef, w)
  | Some g => (inr (), update_obj self (set_end_timer (Some 65) g) w)
  end.

(** The armed timer runs [self.end] in a thread of its own.  Here the whole
    of [end] runs as one event, with no other thread in between; the same
    thread cut into its stretches is [TEndTest] of the section on threads. *)
Definition timer_fires (self : nat) (w : World) : Outcome () := end_ self w.

(** [create_game()], lines 92-96. *)
Definition create_game (tok : string) (now : Z) (rnd : nat → nat) (w : World)
  : Outcome nat :=
  let game := length (heap w) in
  let w := {| heap := heap w ++ [new_GameWithExtras tok now rnd];
              token2game := token2game w |} in
  match start game w with
  | (inl e, w) => (inl e, w)
  | (inr _, w) =>
      match store game w with
      | (inl e, w) => (inl e, w)
      | (inr _, w) => (inr game, w)
      end
  end.

(** [get_game_by_token(game_token)], lines 107-113. *)
Definition get_game_by_token (game_token : string) (w : World) : Outcome nat :=
  match token2game w !! game_token with
  | None => (inl NotFound, w)
  | Some game => (inr game, w)
  end.

(** [Query(..., ge=0, le=3)]. *)
Definition query_ok (x : Z) : bool := (0 <=? x) && (x <=? 3).

(** [open_game_pic(row, col, game)], lines 125-172, with its dependency
    [Depends(get_game_by_token)] resolved first. *)
Definition open_game_pic (row col : Z) (game_token : string) (w : World)
  : Outcome nat :=
  match get_game_by_token game_token w with
  | (inl e, w) => (inl e, w)
  | (inr game, w) =>
      if negb (query_ok row && query_ok col) then (inl RequestValidationError, w)
      else
        match heap w !! game with
        | None => (inl DanglingRef, w)
        | Some g =>
            match open_pic (Z.to_nat row) (Z.to_nat col) g with
            | inl e => (inl e, w)
            | inr (g', false) => (inr game, update_obj game g' w)
            | inr (g', true) =>
                match end_ game (update_obj game g' w) with
                | (inl e, w) => (inl e, w)
                | (inr _, w) => (inr game, w)
                end
            end
        end
  end.

(** ** Responses ([response_model=Game]) *)

(** A JSON value, as far as the responses need it. *)
#[warnings="-register-all"]
Inductive json : Type :=
  | JNum (n : Z)
  | JStr (s : string)
  | JBool (b : bool)
  | JArr (l : list json)
  | JObj (fields : list (string * json)).

Definition Item_json (it : Item) : json :=
  JObj [("photoId", JNum (photoId it));
        ("status", JStr (ImgStatus_value (status it)))].

(** The fields of [Game], in declaration order; the extras of
    [GameWithExtras] are not part of the response model. *)
Definition to_Game (g : GameWithExtras) : Game :=
  mkGame (token g) (items g) (ended g) (started_at g) (score g).

Definition Game_json (g : Game) : json :=
  JObj [("token", JStr (g_token g));
        ("items", JArr ((λ row, JArr (Item_json <$> row)) <$> g_items g));
        ("ended", JBool (g_ended g));
        ("started_at", JNum (g_started_at g));
        ("score", JNum (g_score g))].

(** The body sent for the object a handler returned; all three endpoints
    declare the same response model. *)
Definition response_body (game : nat) (w : World) : option json :=
  (λ g, Game_json (to_Game g)) <$> heap w !! game.

(** Reading a response the way a client does. *)
Fixpoint assoc (k : string) (fields : list (string * json)) : option json :=
  match fields with
  | [] => None
  | (k', v) :: rest => if decide (k' = k) then Some v else assoc k rest
  end.

Definition field (k : string) (j : json) : option json :=
  match j with
  | JObj fields => assoc k fields
  | _ => None
  end.

Definition element (i : nat) (j : json) : option json :=
  match j with
  | JArr l => l !! i
  | _ => None
  end.

(** The [photoId] a response shows for the tile at place [p]. *)
Definition shown_tile (body : json) (p : Pos) : option json :=
  rows ← field "items" body; row ← element p.1 rows; element p.2 row.

Definition shown_photoId (body : json) (p : Pos) : option json :=
  tile ← shown_tile body p; field "photoId" tile.

Definition shown_status (body : json) (p : Pos) : option json :=
  tile ← shown_tile body p; field "status" tile.

(** ** Sequences of requests *)

(** What can happen to the process: the three endpoints, and the firing of
    the timer of a session object.  [step] runs one of them from its first
    statement to its last, and [run] a list of them one after the other: a
    history in which no two calls overlap.  The histories in which they do
    are those of the section on threads. *)
Inductive op : Type :=
  | OpCreate (tok : string) (now : Z) (rnd : nat → nat)
  | OpGet (game_token : string)
  | OpOpen (row col : Z) (game_token : string)
  | OpTimer (self : nat).

Definition step (o : op) (w : World) : World :=
  match o with
  | OpCreate tok now rnd => (create_game tok now rnd w).2
  | OpGet game_token => (get_game_by_token game_token w).2
  | OpOpen row col game_token => (open_game_pic row col game_token w).2
  | OpTimer self => (timer_fires self w).2
  end.

Definition run (ops : list op) (w : World) : World :=
  foldl (λ w o, step o w) w ops.

(** The tokens a sequence of requests creates sessions under. *)
Definition created_tokens (ops : list op) : list string :=
  omap (λ o, match o with OpCreate tok _ _ => Some tok | _ => None end) ops.

(** ** Observations on boards *)

Definition photo_grid (its : Board) : list (list Z) :=
  (λ row : list Item, photoId <$> row) <$> its.

Definition count_status (s : ImgStatus) (its : Board) : nat :=
  length (filter (λ it, status it = s) (concat its)).

(** Four rows of four. *)
Definition is_4x4 (its : Board) : Prop := length <$> its = [4; 4; 4; 4]%nat.

#[global] Instance is_4x4_dec its : Decision (is_4x4 its).
Proof. unfold is_4x4. apply _. Defined.

(** Eight distinct ids, each on exactly two tiles. *)
Definition pairs_ok (its : Board) : Prop :=
  concat (photo_grid its) ≡ₚ photos0.

(** ** Descriptions used in the statements and proofs *)

Ltac destruct_list16 l H :=
  do 16 (destruct l as [|? l]; [discriminate H|]);
  destruct l; [|discriminate H].

(** What the scan does to one tile. *)
Definition close_item (it : Item) : Item :=
  if decide (status it = CLOSING) then with_status CLOSED it else it.

(** The places of the [TEMP_OPEN] tiles, in row-major order. *)
Fixpoint temp_row (r c : nat) (row : list Item) : list Pos :=
  match row with
  | [] => []
  | it :: rest =>
      (if decide (status it = TEMP_OPEN) then [(r, c)] else [])
        ++ temp_row r (S c) rest
  end.

Fixpoint temp_rows (r : nat) (its : Board) : list Pos :=
  match its with
  | [] => []
  | row :: rest => temp_row r 0 row ++ temp_rows (S r) rest
  end.

Definition marked (p : Pos) (g : GameWithExtras) : Board :=
  set_status TEMP_OPEN p (items g).

(** The list [temp_opened] the call at place [p] builds. *)
Definition temp_opened_of (p : Pos) (g : GameWithExtras) : list Pos :=
  (scan (marked p g)).2.

(** The object after the scan, before lines 145-160. *)
Definition scanned (p : Pos) (g : GameWithExtras) : GameWithExtras :=
  set_items (scan (marked p g)).1 g.

Definition status_at (its : Board) (p : Pos) : option ImgStatus :=
  status <$> get_item its p.

(** The two tiles lines 148-160 write to, when they run. *)
Definition resolved_pair (p : Pos) (g : GameWithExtras) : list Pos :=
  match temp_opened_of p g with
  | p1 :: p2 :: _ => [p1; p2]
  | _ => []
  end.

(** [tok] names the live session object [game], whose state is [g]. *)
Definition session (w : World) (tok : string) (game : nat) (g : GameWithExtras)
  : Prop :=
  token2game w !! tok = Some game ∧ heap w !! game = Some g ∧ token g = tok.

(** Every registered token names an object that carries this token and has
    not ended. *)
Definition world_ok (w : World) : Prop :=
  ∀ tok game, token2game w !! tok = Some game →
    ∃ g, heap w !! game = Some g ∧ token g = tok ∧ ended g = false.

(** What never changes on a session object, and the one-way flag. *)
Definition obj_rel (g g' : GameWithExtras) : Prop :=
  token g' = token g ∧
  photo_grid (items g') = photo_grid (items g) ∧
  length <$> items g' = length <$> items g ∧
  (ended g = true → ended g' = true).

Definition heap_ext (h h' : list GameWithExtras) : Prop :=
  ∀ game g, h !! game = Some g → ∃ g', h' !! game = Some g' ∧ obj_rel g g'.

(** The board invariant, in the form the proofs carry around. *)
Definition board_ok (its : Board) : Prop :=
  is_4x4 its ∧ concat (photo_grid its) ≡ₚ photos0.

(** Occurrences of the id [v] on a board. *)
Definition occurrences (v : Z) (its : Board) : nat :=
  length (filter (λ it, photoId it = v) (concat its)).

(** ** Calls in several threads *)

(** The endpoints are plain [def]s, which the framework runs in a worker
    thread per request, and [threading.Timer] runs [end] in a thread of its
    own; the session object and the registry are shared and the code takes
    no lock.  A thread is cut into stretches of the source, each taken as
    one atomic step:
    - [TCreate]: [create_game], lines 93-96;
    - [TGet]: [get_game_by_token] called as an endpoint, lines 108-113;
    - [TStart]: for [open_game_pic], the dependency of lines 108-113 and
      the validation of the arguments;
    - [TCheck]: lines 130-136, check and mark;
    - [TScan]: lines 138-143, the scan;
    - [TResolve]: lines 145-160, the early return or the resolution;
    - [TCount]: lines 162-169, the count and its test;
    - [TEndTest], [TEndSet], [TEndPop]: inside [end], line 70, lines 71-72
      and line 73; [ret] is what the caller returns afterwards, the session
      for the handler (line 172), nothing for the timer.
    A thread may be interrupted between two stretches, so every run of this
    machine is a run of the program. *)
Inductive tstate : Type :=
  | TCreate (tok : string) (now : Z) (rnd : nat → nat)
  | TGet (game_token : string)
  | TStart (row col : Z) (game_token : string)
  | TCheck (row col : nat) (game : nat)
  | TScan (game : nat)
  | TResolve (game : nat) (temp_opened : list Pos)
  | TCount (game : nat)
  | TEndTest (self : nat) (ret : option nat)
  | TEndSet (self : nat) (ret : option nat)
  | TEndPop (self : nat) (ret : option nat)
  | TDone (result : exn + option nat).

(** What a thread ends with: the exception, or the object it returns. *)
Definition outcome_of {A : Type} (f : A → option nat) (r : exn + A)
  : exn + option nat :=
  match r with
  | inl e => inl e
  | inr a => inr (f a)
  end.

(** A stretch that reads the object [self]. *)
Definition on_obj (self : nat) (w : World)
    (k : GameWithExtras → tstate * World) : tstate * World :=
  match heap w !! self with
  | None => (TDone (inl DanglingRef), w)
  | Some g => k g
  end.

(** One stretch of one thread, on the shared world. *)
Definition tstep (t : tstate) (w : World) : tstate * World :=
  match t with
  | TCreate tok now rnd =>
      let '(r, w) := create_game tok now rnd w in (TDone (outcome_of Some r), w)
  | TGet game_token =>
      let '(r, w) := get_game_by_token game_token w in
      (TDone (outcome_of Some r), w)
  | TStart row col game_token =>
      match get_game_by_token game_token w with
      | (inl e, w) => (TDone (inl e), w)
      | (inr game, w) =>
          if negb (query_ok row && query_ok col)
          then (TDone (inl RequestValidationError), w)
          else (TCheck (Z.to_nat row) (Z.to_nat col) game, w)
      end
  | TCheck row col game =>
      on_obj game w (λ g,
        match get_item (items g) (row, col) with
        | None => (TDone (inl IndexError), w)
        | Some item =>
            if decide (status item = OPEN ∨ status item = TEMP_OPEN)
            then (TDone (inl Conflict), w)
            else
              (TScan game,
               update_obj game
                 (set_items (set_status TEMP_OPEN (row, col) (items g)) g) w)
        end)
  | TScan game =>
      on_obj game w (λ g,
        let '(scanned, temp_opened) := scan (items g) in
        (TResolve game temp_opened, update_obj game (set_items scanned g) w))
  | TResolve game temp_opened =>
      match temp_opened with
      | item1 :: item2 :: _ =>
          on_obj game w (λ g,
            (TCount game, update_obj game (resolve item1 item2 g) w))
      | _ => (TDone (inr (Some game)), w)
      end
  | TCount game =>
      on_obj game w (λ g,
        if bool_decide (length (opened (items g)) = 16%nat)
        then (TEndTest game (Some game), w)
        else (TDone (inr (Some game)), w))
  | TEndTest self ret =>
      on_obj self w (λ g,
        if ended g then (TDone (inr ret), w) else (TEndSet self ret, w))
  | TEndSet self ret =>
      on_obj self w (λ g,
        (TEndPop self ret,
         update_obj self (set_ended_event true (set_ended true g)) w))
  | TEndPop self ret =>
      on_obj self w (λ g,
        match token2game w !! token g with
        | None => (TDone (inl (KeyError (token g))), w)
        | Some _ =>
            (TDone (inr ret),
             {| heap := heap w;
                token2game := delete (token g) (token2game w) |})
        end)
  | TDone result => (TDone result, w)
  end.

(** A thread running [n] stretches with no other thread in between. *)
Fixpoint tsteps (n : nat) (σ : tstate * World) : tstate * World :=
  match n with
  | O => σ
  | S n => tsteps n (tstep σ.1 σ.2)
  end.

(** The threads in flight, and the world they share. *)
Definition Pool : Type := (list tstate * World)%type.

(** The scheduler lets thread [i] run its next stretch. *)
Definition sched_step (σ : Pool) (i : nat) : Pool :=
  match σ.1 !! i with
  | None => σ
  | Some t => let '(t', w) := tstep t σ.2 in (<[i := t']> σ.1, w)
  end.

Definition run_sched (sched : list nat) (σ : Pool) : Pool :=
  foldl sched_step σ sched.

(** The thread that serves a request, or runs a timer. *)
Definition thread_of (o : op) : tstate :=
  match o with
  | OpCreate tok now rnd => TCreate tok now rnd
  | OpGet game_token => TGet game_token
  | OpOpen row col game_token => TStart row col game_token
  | OpTimer self => TEndTest self None
  end.

(** What the same request ends with when it runs as one step of [run]. *)
Definition result_of (o : op) (w : World) : exn + option nat :=
  match o with
  | OpCreate tok now rnd => outcome_of Some (create_game tok now rnd w).1
  | OpGet game_token => outcome_of Some (get_game_by_token game_token w).1
  | OpOpen row col game_token =>
      outcome_of Some (open_game_pic row col game_token w).1
  | OpTimer self => outcome_of (λ _, None) (timer_fires self w).1
  end.

(** The threads of the requests [ops] when each has run, in this order,
    with no other in between. *)
Fixpoint results (ops : list op) (w : World) : list tstate :=
  match ops with
  | [] => []
  | o :: ops => TDone (result_of o w) :: results ops (step o w)
  end.

(** The reveal calls with one token, at the given coordinates. *)
Definition reveals (tok : string) (coords : list (Z * Z)) : list op :=
  (λ c : Z * Z, OpOpen c.1 c.2 tok) <$> coords.

(** The schedule that runs the threads [k], [k+1], ... one after the other,
    each to its end: no thread has more than eight stretches. *)
Definition serial_from (k n : nat) : list nat :=
  concat ((λ i, replicate 8 i) <$> seq k n).

Definition is_done (t : tstate) : Prop :=
  match t with TDone _ => True | _ => False end.

(** At most one tile is selected on every board. *)
Definition quiet (w : World) : Prop :=
  ∀ game g, heap w !! game = Some g →
            (count_status TEMP_OPEN (items g) ≤ 1)%nat.

(** ** Sample sessions *)

(** A random source whose draw at index [i] is [i]: every swap of the
    shuffle exchanges an element with itself. *)
Definition demo_rnd : nat → nat := λ i, i.

(** One session, just created: rows [0 1 2 3], [4 5 6 7], [0 1 2 3],
    [4 5 6 7]. *)
Definition w_new : World := (create_game "t" 0 demo_rnd empty_world).2.

(** After the first pick, at (0,0). *)
Definition w_first : World := (open_game_pic 0 0 "t" w_new).2.

(** After a second pick with another id, at (0,1). *)
Definition w_mismatch : World := (open_game_pic 0 1 "t" w_first).2.

(** After the first pair of the sample session has been found. *)
Definition w_match : World := (open_game_pic 2 0 "t" w_first).2.

(** All pairs found but the last, whose first tile (1,3) is selected. *)
Definition w_last : World :=
  run [OpOpen 0 0 "t"; OpOpen 2 0 "t"; OpOpen 0 1 "t"; OpOpen 2 1 "t";
       OpOpen 0 2 "t"; OpOpen 2 2 "t"; OpOpen 0 3 "t"; OpOpen 2 3 "t";
       OpOpen 1 0 "t"; OpOpen 3 0 "t"; OpOpen 1 1 "t"; OpOpen 3 1 "t";
       OpOpen 1 2 "t"; OpOpen 3 2 "t"; OpOpen 1 3 "t"] w_new.

(** The state of the one session object of a sample world. *)
Definition the_game (w : World) : GameWithExtras :=
  default (new_GameWithExtras "" 0 demo_rnd) (heap w !! 0%nat).

(** Two calls on the tiles (0,0) and (2,0) of the new sample session, which
    carry the same id, interleaved stretch by stretch. *)
Definition two_coords : list (Z * Z) := [(0, 0); (2, 0)].
Definition alternating : list nat := [0; 1; 0; 1; 0; 1; 0; 1; 0; 1]%nat.

(** Three calls on the new sample session; each is let through its check
    and mark, then the first one scans. *)
Definition three_coords : list (Z * Z) := [(0, 0); (0, 1); (0, 2)].
Definition marks_first : list nat := [0; 0; 1; 1; 2; 2; 0]%nat.

(** The winning reveal of the sample session and the firing of its timer;
    both pass the test of line 70 before either has set [ended]. *)
Definition win_and_timer : list op := [OpOpen 3 3 "t"; OpTimer 0].
Definition racing : list nat := [0; 0; 0; 0; 0; 0; 1; 0; 0; 1; 1]%nat.

(** ** Statements of the specification that the code does not meet *)

(** The statement of the specification: every tile of a new session is
    [CLOSED]. *)
Definition new_tiles_closed_as_specified : Prop :=
  ∀ tok now rnd w game w' g p it,
    create_game tok now rnd w = (inr game, w') →
    heap w' !! game = Some g →
    get_item (items g) p = Some it → status it = CLOSED.

(** The statement of the specification for a mismatch: both tiles become
    [CLOSING], ten points are taken, and the next reveal call, wherever it
    is made, leaves every tile that was [CLOSING] in status [CLOSED]. *)
Definition mismatch_as_specified : Prop :=
  ∀ w tok game g row col it q itq row' col',
    session w tok game g → ended g = false →
    query_ok row = true → query_ok col = true →
    get_item (items g) (Z.to_nat row, Z.to_nat col) = Some it →
    status it ≠ OPEN → status it ≠ TEMP_OPEN →
    count_status TEMP_OPEN (items g) = 1%nat →
    get_item (items g) q = Some itq → status itq = TEMP_OPEN →
    photoId it ≠ photoId itq →
    query_ok row' = true → query_ok col' = true →
    ∃ w1 g1,
      open_game_pic row col tok w = (inr game, w1) ∧
      heap w1 !! game = Some g1 ∧
      status_at (items g1) (Z.to_nat row, Z.to_nat col) = Some CLOSING ∧
      status_at (items g1) q = Some CLOSING ∧
      score g1 = score g - 10 ∧
      ∀ g2 r,
        heap (open_game_pic row' col' tok w1).2 !! game = Some g2 →
        status_at (items g1) r = Some CLOSING →
        status_at (items g2) r = Some CLOSED.


(** The statement of the specification: the response shows no id for a tile
    that is [CLOSED] or [CLOSING]. *)
Definition hidden_ids_as_specified : Prop :=
  ∀ tok now rnd w game w' g body p it,
    create_game tok now rnd w = (inr game, w') →
    heap w' !! game = Some g →
    response_body game w' = Some body →
    get_item (items g) p = Some it →
    status it = CLOSED ∨ status it = CLOSING →
    shown_photoId body p = None.

(** The statement of the specification: whatever the schedule, reveal
    calls on distinct tiles of one session leave the session as some
    sequential order of them does. *)
Definition serialized_as_specified : Prop :=
  ∀ w tok game g coords sched ts w',
    session w tok game g → ended g = false →
    (count_status TEMP_OPEN (items g) ≤ 1)%nat →
    NoDup coords →
    run_sched sched (thread_of <$> reveals tok coords, w) = (ts, w') →
    Forall is_done ts →
    ∃ order, order ≡ₚ coords ∧
      ∀ g1 g2,
        heap w' !! game = Some g1 →
        heap (run (reveals tok order) w) !! game = Some g2 →
        items g1 = items g2 ∧ score g1 = score g2.

(** ** Further descriptions: registry, flags and places of tiles *)

(** Every session object that has not ended is registered under its own
    token. *)
Definition live_registered (w : World) : Prop :=
  ∀ self g, heap w !! self = Some g → ended g = false →
            token2game w !! token g = Some self.


(** A session object whose board has its sixteen ids in four rows of four,
    and whose score is a multiple of ten. *)
Definition obj_ok (g : GameWithExtras) : Prop :=
  board_ok (items g) ∧ (score g) mod 10 = 0.

Definition heap_ok (w : World) : Prop :=
  ∀ game g, heap w !! game = Some g → obj_ok g.

(** The places of the tiles in status [s], in row-major order. *)
Fixpoint status_row (s : ImgStatus) (r c : nat) (row : list Item) : list Pos :=
  match row with
  | [] => []
  | it :: rest =>
      (if decide (status it = s) then [(r, c)] else [])
        ++ status_row s r (S c) rest
  end.

Fixpoint status_rows (s : ImgStatus) (r : nat) (its : Board) : list Pos :=
  match its with
  | [] => []
  | row :: rest => status_row s r 0 row ++ status_rows s (S r) rest
  end.

(** ** Board construction: properties *)

Section Shuffle.
Context {A : Type}.
Implicit Types (l x : list A).

Lemma insert_head_perm l j a b :
  l !! j = Some b → b :: <[j := a]> l ≡ₚ a :: l.
Proof.
  revert j. induction l as [|y l IH]; intros [|j] Hj; simplify_eq/=.
  - apply perm_swap.
  - rewrite perm_swap, (IH _ Hj). apply perm_swap.
Qed.

Lemma swap_perm x i j : swap x i j ≡ₚ x.
Proof.
  unfold swap.
  destruct (x !! i) as [a|] eqn:Hi; [|done].
  destruct (x !! j) as [b|] eqn:Hj; [|done].
  revert i j Hi Hj. induction x as [|y x IH]; intros [|i] [|j] Hi Hj;
    simplify_eq/=; try done.
  - by apply insert_head_perm.
  - by apply insert_head_perm.
  - f_equiv. by apply IH.
Qed.

Lemma shuffle_from_perm rnd i x : shuffle_from rnd i x ≡ₚ x.
Proof.
  revert x. induction i as [|i IH]; intros x; [done|].
  cbn [shuffle_from]. rewrite IH. apply swap_perm.
Qed.

Lemma shuffle_perm rnd x : shuffle rnd x ≡ₚ x.
Proof. apply shuffle_from_perm. Qed.
End Shuffle.

Lemma shuffle_photos0_length rnd : length (shuffle rnd photos0) = 16%nat.
Proof. by rewrite (shuffle_perm rnd photos0). Qed.

Lemma createItems_concat rnd :
  concat (createItems rnd []) = new_Item <$> shuffle rnd photos0.
Proof.
  pose proof (shuffle_photos0_length rnd) as H.
  unfold createItems. revert H. generalize (shuffle rnd photos0).
  intros l H. destruct_list16 l H. reflexivity.
Qed.

Lemma createItems_4x4 rnd : is_4x4 (createItems rnd []).
Proof.
  pose proof (shuffle_photos0_length rnd) as H.
  unfold createItems. revert H. generalize (shuffle rnd photos0).
  intros l H. destruct_list16 l H. reflexivity.
Qed.

Lemma createItems_status rnd :
  Forall (Forall (λ it, status it = CLOSING)) (createItems rnd []).
Proof.
  unfold createItems. apply Forall_fmap, Forall_true. intros i.
  apply Forall_fmap, Forall_true. done.
Qed.

Lemma photo_grid_concat its :
  concat (photo_grid its) = photoId <$> concat its.
Proof.
  unfold photo_grid. induction its as [|r its IH]; [done|].
  cbn. by rewrite fmap_app, IH.
Qed.

Lemma createItems_pairs rnd : pairs_ok (createItems rnd []).
Proof.
  unfold pairs_ok. rewrite photo_grid_concat, createItems_concat.
  rewrite <- list_fmap_compose.
  change (photoId ∘ new_Item) with (@id Z).
  rewrite list_fmap_id. apply shuffle_perm.
Qed.

(** ** The scan of lines 138-143, described tile by tile *)

Lemma scan_row_eq r c row acc :
  scan_row r c row acc = (close_item <$> row, acc ++ temp_row r c row).
Proof.
  revert c acc. induction row as [|it row IH]; intros c acc; cbn.
  - by rewrite app_nil_r.
  - rewrite IH. unfold close_item.
    destruct (decide (status it = TEMP_OPEN)); cbn; [|done].
    by rewrite <- app_assoc.
Qed.

Lemma scan_rows_eq r its acc :
  scan_rows r its acc
  = ((λ row : list Item, close_item <$> row) <$> its, acc ++ temp_rows r its).
Proof.
  revert r acc. induction its as [|row its IH]; intros r acc; cbn.
  - by rewrite app_nil_r.
  - rewrite scan_row_eq, IH. by rewrite <- app_assoc.
Qed.

Lemma scan_eq its :
  scan its = ((λ row : list Item, close_item <$> row) <$> its, temp_rows 0 its).
Proof. unfold scan. by rewrite scan_rows_eq. Qed.

Lemma elem_of_temp_row r c row p :
  p ∈ temp_row r c row ↔
  p.1 = r ∧ (c ≤ p.2)%nat ∧
  ∃ it, row !! (p.2 - c)%nat = Some it ∧ status it = TEMP_OPEN.
Proof.
  revert c. induction row as [|it row IH]; intros c; cbn.
  - split; [by intros ?%elem_of_nil|]. by intros (_ & _ & ? & ? & _).
  - rewrite elem_of_app, IH. destruct p as [pr pc]; cbn. split.
    + intros [Hhd|(-> & Hc & it' & Hit & Hst)].
      * destruct (decide (status it = TEMP_OPEN)) as [Hs|];
          [|by apply elem_of_nil in Hhd].
        apply list_elem_of_singleton in Hhd. simplify_eq.
        split_and!; [done|lia|]. exists it. by rewrite Nat.sub_diag.
      * split_and!; [done|lia|]. exists it'. split; [|done].
        by replace (pc - c)%nat with (S (pc - S c)) by lia.
    + intros (-> & Hc & it' & Hit & Hst).
      destruct (decide (pc = c)) as [->|Hne].
      * left. rewrite Nat.sub_diag in Hit. simplify_eq/=.
        rewrite decide_True by done. by apply list_elem_of_singleton.
      * right. split_and!; [done|lia|]. exists it'. split; [|done].
        by replace (pc - c)%nat with (S (pc - S c)) in Hit by lia.
Qed.

Lemma elem_of_temp_rows r its p :
  p ∈ temp_rows r its ↔
  (r ≤ p.1)%nat ∧
  ∃ it, get_item its ((p.1 - r)%nat, p.2) = Some it ∧ status it = TEMP_OPEN.
Proof.
  revert r. induction its as [|row its IH]; intros r; cbn.
  - split; [by intros ?%elem_of_nil|]. by intros (_ & ? & ? & _).
  - rewrite elem_of_app, IH, elem_of_temp_row.
    destruct p as [pr pc]; unfold get_item; cbn. split.
    + intros [(-> & _ & it & Hit & Hst)|(Hr & it & Hit & Hst)].
      * split; [lia|]. exists it. rewrite Nat.sub_diag; cbn.
        by rewrite Nat.sub_0_r in Hit.
      * split; [lia|]. exists it. split; [|done].
        by replace (pr - r)%nat with (S (pr - S r)) by lia.
    + intros (Hr & it & Hit & Hst).
      destruct (decide (pr = r)) as [->|Hne].
      * left. split_and!; [done|lia|]. exists it.
        rewrite Nat.sub_diag in Hit; cbn in Hit. by rewrite Nat.sub_0_r.
      * right. split; [lia|]. exists it. split; [|done].
        by replace (pr - r)%nat with (S (pr - S r)) in Hit by lia.
Qed.

(** A place is in [temp_opened] exactly when its tile is [TEMP_OPEN]. *)
Lemma elem_of_temp_opened its p :
  p ∈ temp_rows 0 its ↔
  ∃ it, get_item its p = Some it ∧ status it = TEMP_OPEN.
Proof.
  rewrite elem_of_temp_rows. destruct p as [pr pc]; cbn.
  rewrite Nat.sub_0_r. split; [by intros [_ ?]|]. intros ?; split; [lia|done].
Qed.

Lemma NoDup_temp_row r c row : NoDup (temp_row r c row).
Proof.
  revert c. induction row as [|it row IH]; intros c; cbn; [constructor|].
  destruct (decide (status it = TEMP_OPEN)); cbn; [|done].
  constructor; [|done]. rewrite elem_of_temp_row; cbn. lia.
Qed.

Lemma NoDup_temp_rows r its : NoDup (temp_rows r its).
Proof.
  revert r. induction its as [|row its IH]; intros r; cbn; [constructor|].
  apply NoDup_app. split_and!; [apply NoDup_temp_row| |done].
  intros p [Hp _]%elem_of_temp_row [Hr _]%elem_of_temp_rows. lia.
Qed.

Lemma length_temp_row r c row :
  length (temp_row r c row) = length (filter (λ it, status it = TEMP_OPEN) row).
Proof.
  revert c. induction row as [|it row IH]; intros c; [done|].
  cbn [temp_row]. rewrite length_app, IH, filter_cons.
  by destruct (decide (status it = TEMP_OPEN)).
Qed.

Lemma length_temp_rows r its :
  length (temp_rows r its) = count_status TEMP_OPEN its.
Proof.
  unfold count_status. revert r.
  induction its as [|row its IH]; intros r; [done|].
  cbn [temp_rows concat].
  by rewrite length_app, filter_app, length_app, IH, length_temp_row.
Qed.

(** ** Reading a board after a write *)

Lemma get_item_set_status s p its q :
  get_item (set_status s p its) q
  = if decide (p = q) then with_status s <$> get_item its p
    else get_item its q.
Proof.
  destruct p as [pr pc], q as [qr qc]. unfold get_item, set_status; cbn.
  destruct (decide (pr = qr)) as [->|Hr].
  - rewrite list_lookup_alter_eq. destruct (its !! qr) as [row|]; cbn.
    + destruct (decide (pc = qc)) as [->|Hc].
      * rewrite decide_True by done. apply list_lookup_alter_eq.
      * rewrite decide_False by congruence. by apply list_lookup_alter_ne.
    + by destruct (decide _).
  - rewrite list_lookup_alter_ne by done.
    by rewrite decide_False by congruence.
Qed.

Lemma get_item_set_status_eq s p its :
  get_item (set_status s p its) p = with_status s <$> get_item its p.
Proof. rewrite get_item_set_status. by rewrite decide_True. Qed.

Lemma get_item_set_status_ne s p its q :
  p ≠ q → get_item (set_status s p its) q = get_item its q.
Proof. intros. rewrite get_item_set_status. by rewrite decide_False. Qed.

Lemma get_item_fmap (f : Item → Item) (its : Board) q :
  get_item ((λ row : list Item, f <$> row) <$> its) q = f <$> get_item its q.
Proof.
  unfold get_item. rewrite list_lookup_fmap.
  destruct (its !! q.1) as [row|]; cbn; [|done]. apply list_lookup_fmap.
Qed.

Lemma photo_grid_set_status s p its :
  photo_grid (set_status s p its) = photo_grid its.
Proof.
  unfold photo_grid, set_status.
  rewrite (list_fmap_alter _ _ id).
  - apply list_alter_id. done.
  - apply Forall_true. intros row.
    rewrite (list_fmap_alter _ _ id); [by apply list_alter_id|].
    by apply Forall_true.
Qed.

Lemma photo_grid_close its :
  photo_grid ((λ row : list Item, close_item <$> row) <$> its) = photo_grid its.
Proof.
  unfold photo_grid. rewrite <- list_fmap_compose.
  apply list_fmap_ext. intros _ row _. cbn. rewrite <- list_fmap_compose.
  apply list_fmap_ext. intros _ it _. cbn. unfold close_item.
  by destruct (decide _).
Qed.

Lemma length_set_status s p (its : Board) :
  length <$> set_status s p its = length <$> its.
Proof.
  unfold set_status. rewrite (list_fmap_alter _ _ id).
  - by apply list_alter_id.
  - apply Forall_true. intros row. by rewrite length_alter.
Qed.

Lemma length_close (its : Board) :
  length <$> ((λ row : list Item, close_item <$> row) <$> its) = length <$> its.
Proof.
  rewrite <- list_fmap_compose. apply list_fmap_ext. intros _ row _. cbn.
  by rewrite length_fmap.
Qed.

(** ** The body of the handler, with the two loops replaced by their
       descriptions *)

Lemma open_pic_eq row col g :
  open_pic row col g =
  match get_item (items g) (row, col) with
  | None => inl IndexError
  | Some item =>
      if decide (status item = OPEN ∨ status item = TEMP_OPEN) then inl Conflict
      else
        match temp_opened_of (row, col) g with
        | item1 :: item2 :: _ =>
            let game := resolve item1 item2 (scanned (row, col) g) in
            inr (game, bool_decide (length (opened (items game)) = 16%nat))
        | _ => inr (scanned (row, col) g, false)
        end
  end.
Proof.
  unfold open_pic, temp_opened_of, scanned, marked.
  destruct (get_item _ _); [|done]. destruct (decide _); [done|].
  by destruct (scan _).
Qed.

Lemma get_item_scanned p g q :
  get_item (items (scanned p g)) q = close_item <$> get_item (marked p g) q.
Proof. unfold scanned. rewrite scan_eq. cbn. apply get_item_fmap. Qed.

Lemma get_item_marked p g q :
  get_item (marked p g) q
  = if decide (p = q) then with_status TEMP_OPEN <$> get_item (items g) p
    else get_item (items g) q.
Proof. apply get_item_set_status. Qed.

Lemma elem_of_temp_opened_of p g q :
  q ∈ temp_opened_of p g ↔
  ∃ it, get_item (marked p g) q = Some it ∧ status it = TEMP_OPEN.
Proof. unfold temp_opened_of. rewrite scan_eq. apply elem_of_temp_opened. Qed.

Lemma NoDup_temp_opened_of p g : NoDup (temp_opened_of p g).
Proof. unfold temp_opened_of. rewrite scan_eq. apply NoDup_temp_rows. Qed.

(** The addressed tile is always one of the selected ones. *)
Lemma addressed_in_temp_opened p g it :
  get_item (items g) p = Some it → p ∈ temp_opened_of p g.
Proof.
  intros Hit. apply elem_of_temp_opened_of. exists (with_status TEMP_OPEN it).
  rewrite get_item_marked, decide_True, Hit by done. done.
Qed.

(** A selected tile keeps, through the scan, the id it had before the call. *)
Lemma temp_opened_scanned p g q :
  q ∈ temp_opened_of p g →
  ∃ it0, get_item (items g) q = Some it0 ∧
         get_item (items (scanned p g)) q = Some (with_status TEMP_OPEN it0).
Proof.
  intros (it & Hit & Hst)%elem_of_temp_opened_of.
  rewrite get_item_scanned, Hit. rewrite get_item_marked in Hit.
  destruct (decide (p = q)) as [->|Hne].
  - destruct (get_item (items g) q) as [it0|]; simplify_eq/=.
    exists it0. split; [done|]. unfold close_item. by rewrite decide_False.
  - exists it. split; [done|]. cbn. unfold close_item.
    rewrite decide_False by congruence. by destruct it; simplify_eq/=.
Qed.

(** What a call that passes the check of line 132 returns. *)
Lemma open_pic_ok row col g it :
  get_item (items g) (row, col) = Some it →
  status it ≠ OPEN → status it ≠ TEMP_OPEN →
  ∃ g' b,
    open_pic row col g = inr (g', b) ∧
    token g' = token g ∧ ended g' = ended g ∧
    b = bool_decide (2 ≤ length (temp_opened_of (row, col) g)
                     ∧ length (opened (items g')) = 16)%nat ∧
    match temp_opened_of (row, col) g with
    | p1 :: p2 :: _ =>
        p1 ≠ p2 ∧
        ∃ i1 i2,
          get_item (items g) p1 = Some i1 ∧ get_item (items g) p2 = Some i2 ∧
          if decide (photoId i1 = photoId i2) then
            items g' = set_status OPEN p2
                         (set_status OPEN p1 (items (scanned (row, col) g)))
            ∧ score g' = score g + 30
          else
            items g' = set_status CLOSING p2
                         (set_status CLOSING p1 (items (scanned (row, col) g)))
            ∧ score g' = score g - 10
    | _ => items g' = items (scanned (row, col) g) ∧ score g' = score g
    end.
Proof.
  intros Hit Ho Ht. rewrite open_pic_eq, Hit.
  rewrite decide_False by (intros [?|?]; done).
  pose proof (NoDup_temp_opened_of (row, col) g) as Hnd.
  pose proof (temp_opened_scanned (row, col) g) as Hsel.
  destruct (temp_opened_of (row, col) g) as [|p1 [|p2 rest]].
  - eexists _, _. by split_and!.
  - eexists _, _. by split_and!.
  - destruct (Hsel p1) as (i1 & H1 & H1'); [set_solver|].
    destruct (Hsel p2) as (i2 & H2 & H2'); [set_solver|].
    assert (p1 ≠ p2) as Hne.
    { apply NoDup_cons in Hnd as [Hnd _]. set_solver. }
    unfold resolve. rewrite H1', H2'. cbn.
    destruct (decide (photoId i1 = photoId i2)) as [Heq|Hneq].
    + eexists _, _. split; [done|]. split_and!; try done.
      * apply bool_decide_ext. cbn. split; [|by intros [_ ?]].
        intros ?; split; [lia|done].
      * exists i1, i2. rewrite decide_True by done. done.
    + eexists _, _. split; [done|]. split_and!; try done.
      * apply bool_decide_ext. cbn. split; [|by intros [_ ?]].
        intros ?; split; [lia|done].
      * exists i1, i2. rewrite decide_False by done. done.
Qed.

(** ** Well-formed worlds *)

Lemma heap_update_obj_eq self g g0 w :
  heap w !! self = Some g0 → heap (update_obj self g w) !! self = Some g.
Proof.
  intros H%lookup_lt_Some. cbn. by apply list_lookup_insert_eq.
Qed.

Lemma heap_update_obj_ne self g w other :
  self ≠ other → heap (update_obj self g w) !! other = heap w !! other.
Proof. intros. cbn. by apply list_lookup_insert_ne. Qed.

(** [end] on a registered object that has not ended. *)
Lemma end_session w tok game g :
  session w tok game g → ended g = false →
  end_ game w
  = (inr (),
     {| heap := <[game := set_ended_event true (set_ended true g)]> (heap w);
        token2game := delete tok (token2game w) |}).
Proof.
  intros (Htok & Hg & Ht) He. unfold end_. rewrite Hg, He. cbn.
  rewrite Ht, Htok. done.
Qed.

(** The handler on a registered object whose addressed tile can be
    revealed: the object is mutated in place, and ended when the body asks
    for it. *)
Lemma open_game_pic_ok w tok game g row col it :
  session w tok game g →
  query_ok row = true → query_ok col = true →
  get_item (items g) (Z.to_nat row, Z.to_nat col) = Some it →
  status it ≠ OPEN → status it ≠ TEMP_OPEN →
  ∃ g' b,
    open_pic (Z.to_nat row) (Z.to_nat col) g = inr (g', b) ∧
    open_game_pic row col tok w
    = (inr game,
       if b && negb (ended g) then
         {| heap := <[game := set_ended_event true (set_ended true g')]> (heap w);
            token2game := delete tok (token2game w) |}
       else update_obj game g' w).
Proof.
  intros (Htok & Hg & Ht) Hr Hc Hit Ho Hto.
  destruct (open_pic_ok _ _ _ _ Hit Ho Hto) as (g' & b & Hpic & Ht' & He' & _).
  exists g', b. split; [done|].
  unfold open_game_pic, get_game_by_token. rewrite Htok, Hr, Hc. cbn.
  rewrite Hg, Hpic. destruct b; cbn; [|done].
  destruct (ended g) eqn:He; cbn.
  - unfold end_. erewrite heap_update_obj_eq by done. by rewrite He'.
  - erewrite (end_session _ tok game g'); cbn.
    + by rewrite list_insert_insert_eq.
    + split_and!; cbn; [done| |congruence].
      apply list_lookup_insert_eq. by eapply lookup_lt_Some.
    + congruence.
Qed.

(** ** How the handlers change the heap and the registry *)

Lemma obj_rel_refl g : obj_rel g g.
Proof. by split_and!. Qed.

Lemma obj_rel_trans g1 g2 g3 : obj_rel g1 g2 → obj_rel g2 g3 → obj_rel g1 g3.
Proof.
  intros (? & ? & ? & ?) (? & ? & ? & ?). split_and!; try congruence. auto.
Qed.

Lemma heap_ext_refl h : heap_ext h h.
Proof. intros game g ?. exists g. split; [done|apply obj_rel_refl]. Qed.

Lemma heap_ext_trans h1 h2 h3 : heap_ext h1 h2 → heap_ext h2 h3 → heap_ext h1 h3.
Proof.
  intros H12 H23 game g Hg. destruct (H12 _ _ Hg) as (g2 & Hg2 & ?).
  destruct (H23 _ _ Hg2) as (g3 & ? & ?). exists g3. split; [done|].
  by eapply obj_rel_trans.
Qed.

Lemma heap_ext_insert h self g g' :
  h !! self = Some g → obj_rel g g' → heap_ext h (<[self := g']> h).
Proof.
  intros Hg Hrel game g0 Hg0. destruct (decide (self = game)) as [->|Hne].
  - exists g'. simplify_eq. split; [|done].
    apply list_lookup_insert_eq. by eapply lookup_lt_Some.
  - exists g0. rewrite list_lookup_insert_ne by done.
    split; [done|apply obj_rel_refl].
Qed.

Lemma heap_ext_app h g : heap_ext h (h ++ [g]).
Proof.
  intros game g0 Hg0. exists g0. split; [|apply obj_rel_refl].
  by apply lookup_app_l_Some.
Qed.

Lemma open_pic_inr_inv row col g g' b :
  open_pic row col g = inr (g', b) →
  ∃ it, get_item (items g) (row, col) = Some it ∧
        status it ≠ OPEN ∧ status it ≠ TEMP_OPEN.
Proof.
  unfold open_pic. destruct (get_item _ _) as [it|]; [|done].
  destruct (decide _) as [|Hn]; [done|]. intros _. exists it.
  split_and!; [done|..]; intros ?; apply Hn; auto.
Qed.

Lemma photo_grid_scanned p g :
  photo_grid (items (scanned p g)) = photo_grid (items g).
Proof.
  unfold scanned. rewrite scan_eq. cbn. rewrite photo_grid_close.
  apply photo_grid_set_status.
Qed.

Lemma length_scanned p g :
  length <$> items (scanned p g) = length <$> items g.
Proof.
  unfold scanned. rewrite scan_eq. cbn. rewrite length_close.
  apply length_set_status.
Qed.

(** The body never touches a [photoId], the shape of the board, the token
    or the [ended] flag. *)
Lemma open_pic_obj_rel row col g g' b :
  open_pic row col g = inr (g', b) → obj_rel g g' ∧ ended g' = ended g.
Proof.
  intros Hpic. destruct (open_pic_inr_inv _ _ _ _ _ Hpic) as (it & Hit & Ho & Ht).
  destruct (open_pic_ok _ _ _ _ Hit Ho Ht) as (g1 & b1 & Hpic1 & Htok & He & _ & Hc).
  rewrite Hpic in Hpic1. simplify_eq. split; [|done].
  split_and!; [done| | |congruence].
  - destruct (temp_opened_of _ _) as [|p1 [|p2 rest]].
    + destruct Hc as [-> _]. apply photo_grid_scanned.
    + destruct Hc as [-> _]. apply photo_grid_scanned.
    + destruct Hc as (_ & i1 & i2 & _ & _ & Hc).
      destruct (decide _); destruct Hc as [-> _];
        by rewrite !photo_grid_set_status, photo_grid_scanned.
  - destruct (temp_opened_of _ _) as [|p1 [|p2 rest]].
    + destruct Hc as [-> _]. apply length_scanned.
    + destruct Hc as [-> _]. apply length_scanned.
    + destruct Hc as (_ & i1 & i2 & _ & _ & Hc).
      destruct (decide _); destruct Hc as [-> _];
        by rewrite !length_set_status, length_scanned.
Qed.

Lemma end_heap_ext self w : heap_ext (heap w) (heap (end_ self w).2).
Proof.
  unfold end_. destruct (heap w !! self) as [g|] eqn:Hg; [|apply heap_ext_refl].
  destruct (ended g) eqn:He; [apply heap_ext_refl|].
  assert (heap_ext (heap w)
            (<[self := set_ended_event true (set_ended true g)]> (heap w))).
  { eapply heap_ext_insert; [done|]. by split_and!. }
  cbn. by destruct (token2game w !! token g).
Qed.

Lemma create_game_heap tok now rnd w :
  create_game tok now rnd w
  = (inr (length (heap w)),
     {| heap := heap w ++ [set_end_timer (Some 65) (new_GameWithExtras tok now rnd)];
        token2game := <[tok := length (heap w)]> (token2game w) |}).
Proof.
  unfold create_game, start, store, update_obj. cbn.
  rewrite lookup_app_r, Nat.sub_diag by done. cbn.
  rewrite insert_app_r_alt, Nat.sub_diag by done. cbn.
  rewrite lookup_app_r, Nat.sub_diag by done. cbn. done.
Qed.

Lemma open_game_pic_heap_ext row col tok w :
  heap_ext (heap w) (heap (open_game_pic row col tok w).2).
Proof.
  unfold open_game_pic, get_game_by_token.
  destruct (token2game w !! tok) as [game|]; [|apply heap_ext_refl]. cbn.
  destruct (negb _); [apply heap_ext_refl|].
  destruct (heap w !! game) as [g|] eqn:Hg; [|apply heap_ext_refl].
  destruct (open_pic _ _ g) as [e|[g' b]] eqn:Hpic; [apply heap_ext_refl|].
  apply open_pic_obj_rel in Hpic as [Hrel _].
  assert (heap_ext (heap w) (heap (update_obj game g' w))) as Hup.
  { by eapply heap_ext_insert. }
  destruct b; [|done].
  pose proof (end_heap_ext game (update_obj game g' w)) as Hend.
  destruct (end_ game (update_obj game g' w)) as [[e|?] w']; cbn in *;
    by eapply heap_ext_trans.
Qed.

Lemma step_heap_ext o w : heap_ext (heap w) (heap (step o w)).
Proof.
  destruct o as [tok now rnd|tok|row col tok|self]; cbn.
  - rewrite create_game_heap. apply heap_ext_app.
  - unfold get_game_by_token. destruct (_ !! _); apply heap_ext_refl.
  - apply open_game_pic_heap_ext.
  - apply end_heap_ext.
Qed.

Lemma run_snoc ops o w : run (ops ++ [o]) w = step o (run ops w).
Proof. unfold run. by rewrite foldl_app. Qed.

Lemma run_heap_ext ops w : heap_ext (heap w) (heap (run ops w)).
Proof.
  induction ops as [|o ops IH] using rev_ind; [apply heap_ext_refl|].
  rewrite run_snoc. eapply heap_ext_trans; [done|apply step_heap_ext].
Qed.

Lemma end_heap_length self w : length (heap (end_ self w).2) = length (heap w).
Proof.
  unfold end_. destruct (heap w !! self) as [g|]; [|done].
  destruct (ended g); [done|]. cbn.
  destruct (token2game w !! token g); cbn; apply length_insert.
Qed.

Lemma open_game_pic_heap_length row col tok w :
  length (heap (open_game_pic row col tok w).2) = length (heap w).
Proof.
  unfold open_game_pic, get_game_by_token.
  destruct (token2game w !! tok) as [game|]; [|done]. cbn.
  destruct (negb _); [done|]. destruct (heap w !! game) as [g|]; [|done].
  destruct (open_pic _ _ g) as [e|[g' [|]]]; [done| |apply length_insert].
  pose proof (end_heap_length game (update_obj game g' w)) as Hend.
  destruct (end_ game (update_obj game g' w)) as [[e|?] w']; cbn in *;
    by rewrite Hend, length_insert.
Qed.

(** Where the objects of the heap come from after one step. *)
Lemma step_heap_inv o w game g' :
  heap (step o w) !! game = Some g' →
  (∃ g, heap w !! game = Some g ∧ obj_rel g g') ∨
  (∃ tok now rnd, o = OpCreate tok now rnd ∧ game = length (heap w) ∧
     g' = set_end_timer (Some 65) (new_GameWithExtras tok now rnd)).
Proof.
  intros Hg'.
  assert (length (heap (step o w)) = length (heap w) →
          ∃ g, heap w !! game = Some g ∧ obj_rel g g') as Hsame.
  { intros Hlen. pose proof (lookup_lt_Some _ _ _ Hg') as Hlt.
    rewrite Hlen in Hlt. apply lookup_lt_is_Some in Hlt as [g Hg].
    destruct (step_heap_ext o w _ _ Hg) as (g'' & Hg'' & Hrel).
    exists g. split; [done|]. congruence. }
  destruct o as [tok now rnd|tok|row col tok|self].
  - cbn in Hg'. rewrite create_game_heap in Hg'. cbn in Hg'.
    apply lookup_app_Some in Hg' as [Hg'|[Hlen Hg']].
    + left. exists g'. split; [done|apply obj_rel_refl].
    + right. exists tok, now, rnd.
      apply list_lookup_singleton_Some in Hg' as [Hi <-].
      split_and!; [done|lia|done].
  - left. apply Hsame. cbn. unfold get_game_by_token.
    by destruct (token2game w !! tok).
  - left. apply Hsame. apply open_game_pic_heap_length.
  - left. apply Hsame. apply end_heap_length.
Qed.

Lemma board_ok_obj_rel g g' :
  obj_rel g g' → board_ok (items g) → board_ok (items g').
Proof.
  intros (_ & Hgrid & Hlen & _) [H4 Hp]. unfold board_ok, is_4x4 in *.
  by rewrite Hgrid, Hlen.
Qed.

Lemma board_ok_new tok now rnd :
  board_ok (items (set_end_timer (Some 65) (new_GameWithExtras tok now rnd))).
Proof. split; [apply createItems_4x4|apply createItems_pairs]. Qed.

Lemma run_boards_ok ops game g :
  heap (run ops empty_world) !! game = Some g → board_ok (items g).
Proof.
  revert game g. induction ops as [|o ops IH] using rev_ind; intros game g.
  - cbn. by rewrite lookup_nil.
  - rewrite run_snoc.
    intros [(g0 & Hg0 & Hrel)|(tok & now & rnd & _ & _ & ->)]%step_heap_inv.
    + eapply board_ok_obj_rel; eauto.
    + apply board_ok_new.
Qed.

Lemma occurrences_photos0 (v : Z) :
  length (filter (λ x, x = v) photos0)
  = if decide (0 ≤ v < 8) then 2%nat else 0%nat.
Proof.
  destruct (decide (0 ≤ v < 8)) as [Hv|Hv].
  - assert (v = 0 ∨ v = 1 ∨ v = 2 ∨ v = 3 ∨ v = 4 ∨ v = 5 ∨ v = 6 ∨ v = 7)
      as Hcases by lia.
    destruct Hcases as [->|[->|[->|[->|[->|[->|[->| ->]]]]]]]; reflexivity.
  - assert (Forall (λ x, x ≠ v) photos0) as Hall.
    { apply Forall_forall. intros x Hx.
      assert (0 ≤ x < 8); [|lia].
      revert x Hx. apply Forall_forall. unfold photos0, list_mul, range. cbn.
      repeat (constructor; [lia|]). constructor. }
    induction Hall as [|x l Hx _ IH]; [done|].
    rewrite filter_cons, decide_False by done. exact IH.
Qed.

Lemma board_ok_occurrences its v :
  board_ok its →
  occurrences v its = if decide (0 ≤ v < 8) then 2%nat else 0%nat.
Proof.
  intros [_ Hp]. rewrite <- occurrences_photos0, <- Hp, photo_grid_concat.
  unfold occurrences. generalize (concat its). intros l.
  induction l as [|it l IH]; [done|]. cbn [fmap list_fmap].
  rewrite !filter_cons. destruct (decide _); cbn; by rewrite IH.
Qed.

(** ** The registry *)

Lemma world_ok_empty : world_ok empty_world.
Proof. intros tok game. cbn. by rewrite lookup_empty. Qed.

Lemma world_ok_update_obj game g g' w :
  world_ok w → heap w !! game = Some g →
  token g' = token g → ended g' = ended g →
  world_ok (update_obj game g' w).
Proof.
  intros Hok Hg Ht He tok game' Htok. cbn in Htok.
  destruct (Hok _ _ Htok) as (g0 & Hg0 & Ht0 & He0).
  destruct (decide (game = game')) as [<-|Hne].
  - exists g'. erewrite heap_update_obj_eq by done.
    simplify_eq. split_and!; congruence.
  - exists g0. by rewrite heap_update_obj_ne.
Qed.

Lemma world_ok_end self w : world_ok w → world_ok (end_ self w).2.
Proof.
  intros Hok. unfold end_. destruct (heap w !! self) as [g|] eqn:Hg; [|done].
  destruct (ended g) eqn:He; [done|]. cbn.
  assert (∀ tok game, tok ≠ token g → token2game w !! tok = Some game →
    ∃ g0, <[self := set_ended_event true (set_ended true g)]> (heap w) !! game
          = Some g0 ∧ token g0 = tok ∧ ended g0 = false) as Hrest.
  { intros tok game Hne Htok. destruct (Hok _ _ Htok) as (g0 & Hg0 & Ht0 & He0).
    exists g0. rewrite list_lookup_insert_ne; [done|].
    intros ->. simplify_eq. }
  destruct (token2game w !! token g) as [game0|] eqn:Hlook; cbn.
  - intros tok game Htok. cbn in Htok.
    apply lookup_delete_Some in Htok as [Hne Htok]. by apply Hrest.
  - intros tok game Htok. cbn in Htok. apply Hrest; [|done].
    intros ->. congruence.
Qed.

Lemma world_ok_step o w : world_ok w → world_ok (step o w).
Proof.
  intros Hok. destruct o as [tok now rnd|tok|row col tok|self]; cbn.
  - rewrite create_game_heap. intros tok' game. cbn.
    intros [[<- <-]|[Hne Htok]]%lookup_insert_Some.
    + eexists. rewrite lookup_app_r, Nat.sub_diag by done. by split_and!.
    + destruct (Hok _ _ Htok) as (g0 & Hg0 & ?). exists g0.
      split; [|done]. by apply lookup_app_l_Some.
  - unfold get_game_by_token. by destruct (_ !! _).
  - unfold open_game_pic, get_game_by_token.
    destruct (token2game w !! tok) as [game|]; [|done]. cbn.
    destruct (negb _); [done|]. destruct (heap w !! game) as [g|] eqn:Hg; [|done].
    destruct (open_pic _ _ g) as [e|[g' b]] eqn:Hpic; [done|].
    apply open_pic_obj_rel in Hpic as [(Ht & _) He].
    pose proof (world_ok_update_obj _ _ _ _ Hok Hg Ht He) as Hup.
    destruct b; [|done].
    pose proof (world_ok_end game _ Hup) as Hend.
    by destruct (end_ game (update_obj game g' w)) as [[e|?] w'].
  - by apply world_ok_end.
Qed.

Lemma world_ok_run ops w : world_ok w → world_ok (run ops w).
Proof.
  intros Hok. induction ops as [|o ops IH] using rev_ind; [done|].
  rewrite run_snoc. by apply world_ok_step.
Qed.

(** Only [create_game] registers a token. *)
Lemma end_registry self w tok :
  token2game w !! tok = None → token2game (end_ self w).2 !! tok = None.
Proof.
  intros Hnone. unfold end_. destruct (heap w !! self) as [g|]; [|done].
  destruct (ended g); [done|]. cbn.
  destruct (token2game w !! token g); cbn; [|done].
  apply lookup_delete_None. auto.
Qed.

Lemma step_registry o w tok :
  tok ∉ created_tokens [o] →
  token2game w !! tok = None → token2game (step o w) !! tok = None.
Proof.
  intros Hfresh Hnone. destruct o as [tok' now rnd|tok'|row col tok'|self]; cbn.
  - rewrite create_game_heap. cbn. rewrite lookup_insert_ne; [done|].
    intros ->. apply Hfresh. cbn. set_solver.
  - unfold get_game_by_token. by destruct (token2game w !! tok').
  - unfold open_game_pic, get_game_by_token.
    destruct (token2game w !! tok') as [game|]; [|done]. cbn.
    destruct (negb _); [done|]. destruct (heap w !! game) as [g|]; [|done].
    destruct (open_pic _ _ g) as [e|[g' [|]]]; [done| |done].
    pose proof (end_registry game (update_obj game g' w) tok Hnone) as Hend.
    by destruct (end_ game (update_obj game g' w)) as [[e|?] w'].
  - by apply end_registry.
Qed.

Lemma run_registry ops w tok :
  tok ∉ created_tokens ops →
  token2game w !! tok = None → token2game (run ops w) !! tok = None.
Proof.
  induction ops as [|o ops IH] using rev_ind; [done|].
  unfold created_tokens. rewrite omap_app. intros Hfresh Hnone.
  rewrite run_snoc. apply step_registry; [set_solver|]. apply IH; [|done].
  set_solver.
Qed.

(** ** The result of a reveal, tile by tile *)

(** A tile outside the resolved pair is as the scan left it. *)
Lemma open_pic_other row col g g' b r :
  open_pic row col g = inr (g', b) →
  r ∉ resolved_pair (row, col) g →
  get_item (items g') r = close_item <$> get_item (marked (row, col) g) r.
Proof.
  intros Hpic Hr.
  destruct (open_pic_inr_inv _ _ _ _ _ Hpic) as (it & Hit & Ho & Ht).
  destruct (open_pic_ok _ _ _ _ Hit Ho Ht) as (g1 & b1 & Hpic1 & _ & _ & _ & Hc).
  rewrite Hpic in Hpic1. simplify_eq. unfold resolved_pair in Hr.
  rewrite <- get_item_scanned.
  destruct (temp_opened_of _ _) as [|p1 [|p2 rest]].
  - by destruct Hc as [-> _].
  - by destruct Hc as [-> _].
  - destruct Hc as (_ & i1 & i2 & _ & _ & Hc).
    assert (p1 ≠ r ∧ p2 ≠ r) as [? ?] by set_solver.
    destruct (decide _); destruct Hc as [-> _];
      by rewrite !get_item_set_status_ne.
Qed.

(** The resolved pair: both tiles get the same status, [OPEN] with 30
    points when the ids agree, [CLOSING] with 10 points off otherwise. *)
Lemma open_pic_pair row col g g' b p1 p2 rest :
  open_pic row col g = inr (g', b) →
  temp_opened_of (row, col) g = p1 :: p2 :: rest →
  ∃ i1 i2,
    get_item (items g) p1 = Some i1 ∧ get_item (items g) p2 = Some i2 ∧
    p1 ≠ p2 ∧
    let s := if decide (photoId i1 = photoId i2) then OPEN else CLOSING in
    get_item (items g') p1 = Some (with_status s i1) ∧
    get_item (items g') p2 = Some (with_status s i2) ∧
    score g' = score g + (if decide (photoId i1 = photoId i2) then 30 else -10).
Proof.
  intros Hpic Hsel.
  destruct (open_pic_inr_inv _ _ _ _ _ Hpic) as (it & Hit & Ho & Ht).
  destruct (open_pic_ok _ _ _ _ Hit Ho Ht) as (g1 & b1 & Hpic1 & _ & _ & _ & Hc).
  rewrite Hpic in Hpic1. simplify_eq.
  destruct (temp_opened_scanned (row, col) g p1) as (j1 & Hj1 & Hj1');
    [rewrite Hsel; set_solver|].
  destruct (temp_opened_scanned (row, col) g p2) as (j2 & Hj2 & Hj2');
    [rewrite Hsel; set_solver|].
  rewrite Hsel in Hc. destruct Hc as (Hne & i1 & i2 & H1 & H2 & Hc).
  exists i1, i2. simplify_eq. split_and!; [done..|]. cbn.
  destruct (decide _); destruct Hc as [-> ->].
  - rewrite get_item_set_status_ne, !get_item_set_status_eq by done.
    rewrite get_item_set_status_ne by done.
    rewrite Hj1', Hj2'. split_and!; [done..|lia].
  - rewrite get_item_set_status_ne, !get_item_set_status_eq by done.
    rewrite get_item_set_status_ne by done.
    rewrite Hj1', Hj2'. split_and!; [done..|lia].
Qed.

(** Without a second selection the score stays. *)
Lemma open_pic_single row col g g' b :
  open_pic row col g = inr (g', b) →
  (length (temp_opened_of (row, col) g) < 2)%nat →
  score g' = score g ∧ b = false.
Proof.
  intros Hpic Hlen.
  destruct (open_pic_inr_inv _ _ _ _ _ Hpic) as (it & Hit & Ho & Ht).
  destruct (open_pic_ok _ _ _ _ Hit Ho Ht) as (g1 & b1 & Hpic1 & _ & _ & Hb & Hc).
  rewrite Hpic in Hpic1. simplify_eq. split.
  - destruct (temp_opened_of _ _) as [|p1 [|p2 rest]]; cbn in Hlen;
      [by destruct Hc..|lia].
  - apply bool_decide_eq_false_2. lia.
Qed.

(** The selection of a call is the addressed tile together with the tiles
    that were [TEMP_OPEN] before it. *)
Lemma elem_of_temp_opened_of_inv p g q :
  q ∈ temp_opened_of p g → q = p ∨ q ∈ temp_rows 0 (items g).
Proof.
  intros (it & Hit & Hst)%elem_of_temp_opened_of.
  rewrite get_item_marked in Hit. destruct (decide (p = q)) as [->|Hne]; [auto|].
  right. apply elem_of_temp_opened. eauto.
Qed.

Lemma temp_opened_of_intro p g q it :
  get_item (items g) p = Some it →
  (q = p ∨ q ∈ temp_rows 0 (items g)) → q ∈ temp_opened_of p g.
Proof.
  intros Hit [->|Hq]; [by eapply addressed_in_temp_opened|].
  destruct (decide (p = q)) as [->|Hne]; [by eapply addressed_in_temp_opened|].
  apply elem_of_temp_opened in Hq as (itq & Hq & Hst).
  apply elem_of_temp_opened_of. exists itq.
  by rewrite get_item_marked, decide_False.
Qed.

Lemma length_temp_opened_of p g :
  (length (temp_opened_of p g) ≤ S (count_status TEMP_OPEN (items g)))%nat.
Proof.
  rewrite <- (length_temp_rows 0).
  change (S (length (temp_rows 0 (items g))))
    with (length (p :: temp_rows 0 (items g))).
  apply submseteq_length, NoDup_submseteq; [apply NoDup_temp_opened_of|].
  intros q [->|Hq]%elem_of_temp_opened_of_inv; set_solver.
Qed.

(** With one tile selected before the call, at [q], and another tile
    addressed, the selection is these two, in scan order. *)
Lemma temp_opened_of_second p g it q itq :
  get_item (items g) p = Some it → status it ≠ TEMP_OPEN →
  count_status TEMP_OPEN (items g) = 1%nat →
  get_item (items g) q = Some itq → status itq = TEMP_OPEN →
  temp_opened_of p g = [p; q] ∨ temp_opened_of p g = [q; p].
Proof.
  intros Hit Hst Hcount Hq Hqst.
  assert (p ≠ q) as Hne by (intros ->; congruence).
  assert (q ∈ temp_rows 0 (items g)) as Hqin.
  { apply elem_of_temp_opened. eauto. }
  assert (temp_rows 0 (items g) = [q]) as Hrows.
  { pose proof (length_temp_rows 0 (items g)) as Hlen. rewrite Hcount in Hlen.
    destruct (temp_rows 0 (items g)) as [|x [|y l]]; simplify_eq/=.
    by apply list_elem_of_singleton in Hqin as ->. }
  assert (temp_opened_of p g ≡ₚ [p; q]) as Hperm.
  { apply NoDup_Permutation; [apply NoDup_temp_opened_of| |].
    - apply NoDup_cons. split; [|apply NoDup_singleton].
      by intros ?%list_elem_of_singleton.
    - intros x. rewrite !elem_of_cons. split.
      + intros Hx. apply elem_of_temp_opened_of_inv in Hx as [Hx|Hx]; [auto|].
        rewrite Hrows in Hx. apply list_elem_of_singleton in Hx. auto.
      + intros Hx. eapply temp_opened_of_intro; [done|].
        rewrite Hrows, list_elem_of_singleton.
        destruct Hx as [?|[?|[]%elem_of_nil]]; auto. }
  symmetry in Hperm. apply Permutation_length_2_inv in Hperm.
  destruct Hperm; auto.
Qed.

(** ** The handler as a whole *)

(** A call of [open_game_pic] either leaves the world as it was, or has run
    the body on the object registered under the token and written the
    outcome to that object. *)
Lemma open_game_pic_cases row col tok w :
  (open_game_pic row col tok w).2 = w ∨
  ∃ game g g1 b g',
    token2game w !! tok = Some game ∧ heap w !! game = Some g ∧
    query_ok row = true ∧ query_ok col = true ∧
    open_pic (Z.to_nat row) (Z.to_nat col) g = inr (g1, b) ∧
    heap (open_game_pic row col tok w).2 = <[game := g']> (heap w) ∧
    items g' = items g1 ∧ score g' = score g1.
Proof.
  unfold open_game_pic, get_game_by_token.
  destruct (token2game w !! tok) as [game|] eqn:Htok; [|by left]. cbn.
  destruct (query_ok row) eqn:Hr; [|by left].
  destruct (query_ok col) eqn:Hc; [|by left]. cbn.
  destruct (heap w !! game) as [g|] eqn:Hg; [|by left].
  destruct (open_pic _ _ g) as [e|[g1 b]] eqn:Hpic; [by left|].
  right. exists game, g, g1, b.
  destruct b; [|exists g1; by split_and!].
  unfold end_. erewrite heap_update_obj_eq by done.
  destruct (ended g1).
  - exists g1. by split_and!.
  - exists (set_ended_event true (set_ended true g1)). cbn.
    destruct (token2game w !! token g1); cbn;
      rewrite list_insert_insert_eq; by split_and!.
Qed.

(** The handler on a registered session whose addressed tile passes the
    check of line 132: it returns the session, whose object now carries the
    board and the score the body computed; the session is ended and taken
    out of the registry exactly when the body asked for it. *)
Lemma open_game_pic_result w tok game g row col it :
  session w tok game g → ended g = false →
  query_ok row = true → query_ok col = true →
  get_item (items g) (Z.to_nat row, Z.to_nat col) = Some it →
  status it ≠ OPEN → status it ≠ TEMP_OPEN →
  ∃ g1 b w' g',
    open_pic (Z.to_nat row) (Z.to_nat col) g = inr (g1, b) ∧
    open_game_pic row col tok w = (inr game, w') ∧
    heap w' !! game = Some g' ∧
    items g' = items g1 ∧ score g' = score g1 ∧ token g' = tok ∧
    ended g' = b ∧
    token2game w' = (if b then delete tok (token2game w) else token2game w).
Proof.
  intros Hs He Hr Hc Hit Ho Ht.
  destruct (open_game_pic_ok _ _ _ _ _ _ _ Hs Hr Hc Hit Ho Ht)
    as (g1 & b & Hpic & Hres).
  destruct Hs as (Htok & Hg & Htg).
  pose proof (lookup_lt_Some _ _ _ Hg) as Hlt.
  destruct (open_pic_obj_rel _ _ _ _ _ Hpic) as [(Ht1 & _) He1].
  rewrite He in Hres. exists g1, b. destruct b; cbn in Hres.
  - eexists _, _. split; [done|]. split; [exact Hres|]. cbn.
    rewrite list_lookup_insert_eq by done.
    split_and!; try done; cbn; congruence.
  - eexists _, _. split; [done|]. split; [exact Hres|]. cbn.
    rewrite list_lookup_insert_eq by done.
    split_and!; try done; cbn; congruence.
Qed.

(** The handler on a tile that is already visible. *)
Lemma open_game_pic_conflict w tok game g row col it :
  session w tok game g →
  query_ok row = true → query_ok col = true →
  get_item (items g) (Z.to_nat row, Z.to_nat col) = Some it →
  status it = OPEN ∨ status it = TEMP_OPEN →
  open_game_pic row col tok w = (inl Conflict, w).
Proof.
  intros (Htok & Hg & _) Hr Hc Hit Hst.
  unfold open_game_pic, get_game_by_token. rewrite Htok, Hr, Hc. cbn.
  rewrite Hg. unfold open_pic. rewrite Hit. by rewrite decide_True.
Qed.

(** The tiles that are [TEMP_OPEN] after a call were selected by it and are
    not of the resolved pair. *)
Lemma temp_after row col g g' b r :
  open_pic row col g = inr (g', b) →
  r ∈ temp_rows 0 (items g') →
  r ∈ temp_opened_of (row, col) g ∧ r ∉ resolved_pair (row, col) g.
Proof.
  intros Hpic (it' & Hit' & Hst')%elem_of_temp_opened.
  assert (r ∉ resolved_pair (row, col) g) as Hout.
  { unfold resolved_pair.
    destruct (temp_opened_of (row, col) g) as [|p1 [|p2 rest]] eqn:Hsel;
      [by intros ?%elem_of_nil..|].
    destruct (open_pic_pair _ _ _ _ _ _ _ _ Hpic Hsel)
      as (i1 & i2 & _ & _ & _ & Hp1 & Hp2 & _).
    rewrite !elem_of_cons. intros [->|[->|[]%elem_of_nil]]; simplify_eq;
      cbn in Hst'; by destruct (decide _). }
  split; [|done].
  rewrite (open_pic_other _ _ _ _ _ _ Hpic Hout) in Hit'.
  apply elem_of_temp_opened_of.
  destruct (get_item (marked (row, col) g) r) as [it0|]; [|done].
  exists it0. split; [done|]. cbn in Hit'. simplify_eq.
  unfold close_item in Hst'. by destruct (decide _).
Qed.

(** One selected tile at most before a call: two at most are seen by it,
    and one at most is left selected. *)
Lemma temp_count_after row col g g' b :
  open_pic row col g = inr (g', b) →
  (count_status TEMP_OPEN (items g) ≤ 1)%nat →
  (length (temp_opened_of (row, col) g) ≤ 2)%nat ∧
  (count_status TEMP_OPEN (items g') ≤ 1)%nat ∧
  (length (temp_opened_of (row, col) g) = 2%nat →
   count_status TEMP_OPEN (items g') = 0%nat).
Proof.
  intros Hpic Hcount.
  pose proof (length_temp_opened_of (row, col) g) as Hlen.
  pose proof (λ r, temp_after _ _ _ _ _ r Hpic) as Hafter.
  pose proof (NoDup_temp_rows 0 (items g')) as Hnd.
  rewrite <- (length_temp_rows 0 (items g')).
  unfold resolved_pair in Hafter.
  split; [lia|].
  destruct (temp_opened_of (row, col) g) as [|p1 [|p2 rest]] eqn:Hsel.
  - split; [|done].
    destruct (temp_rows 0 (items g')) as [|x l]; [cbn; lia|].
    destruct (Hafter x) as [[]%elem_of_nil _]. apply elem_of_cons; auto.
  - split; [|done].
    apply (submseteq_length _ [p1]), NoDup_submseteq; [done|].
    intros x Hx. by destruct (Hafter x Hx).
  - assert (rest = []) as -> by (destruct rest; [done|cbn in Hlen; lia]).
    assert (temp_rows 0 (items g') = []) as ->; [|cbn; split; [lia|done]].
    destruct (temp_rows 0 (items g')) as [|x l]; [done|].
    destruct (Hafter x) as [? ?]; [apply elem_of_cons; auto|done].
Qed.

Lemma get_item_concat (its : Board) p it :
  get_item its p = Some it → it ∈ concat its.
Proof.
  destruct p as [r c]. unfold get_item. cbn. revert r.
  induction its as [|row its IH]; intros [|r]; cbn; try done.
  - intros Hit. apply elem_of_app. left. by eapply list_elem_of_lookup_2.
  - intros Hit. apply elem_of_app. right. by eapply IH.
Qed.

Lemma is_4x4_length its : is_4x4 its → length (concat its) = 16%nat.
Proof.
  unfold is_4x4. intros H.
  destruct its as [|r0 [|r1 [|r2 [|r3 [|r4 its]]]]]; simplify_eq/=.
  rewrite !length_app. cbn. lia.
Qed.

(** On a board of sixteen tiles, [len(opened) == 16] says that every tile
    is [OPEN]. *)
Lemma opened_16_all its :
  is_4x4 its →
  length (opened its) = 16%nat ↔ Forall (λ it, status it = OPEN) (concat its).
Proof.
  intros H16%is_4x4_length. unfold opened. revert H16.
  generalize (concat its). intros l0 H16. split.
  - intros Hlen. apply Forall_forall. intros it Hit.
    destruct (decide (status it = OPEN)) as [|Hn]; [done|].
    pose proof (length_filter_lt (λ it, status it = OPEN) _ _ Hit Hn). lia.
  - intros Hall. rewrite <- H16. f_equal. clear H16.
    induction Hall as [|it l Hit _ IH]; [done|].
    rewrite filter_cons, decide_True by done. by rewrite IH.
Qed.

(** Apart from the reveal handler nothing writes to a board or a score. *)
Lemma step_other_keeps_board o w game g :
  (∀ row col tok, o ≠ OpOpen row col tok) →
  heap w !! game = Some g →
  ∃ g', heap (step o w) !! game = Some g' ∧
        items g' = items g ∧ score g' = score g.
Proof.
  intros Hno Hg. destruct o as [tok now rnd|tok|row col tok|self]; cbn.
  - rewrite create_game_heap. exists g. split; [|done].
    by apply lookup_app_l_Some.
  - exists g. unfold get_game_by_token.
    by destruct (token2game w !! tok).
  - by destruct (Hno row col tok).
  - unfold timer_fires, end_.
    destruct (heap w !! self) as [g0|] eqn:Hg0; [|exists g; by split_and!].
    destruct (ended g0); [exists g; by split_and!|].
    assert (∃ g', <[self := set_ended_event true (set_ended true g0)]> (heap w)
                    !! game = Some g' ∧ items g' = items g ∧ score g' = score g)
      as Hres.
    { destruct (decide (self = game)) as [->|Hne].
      - eexists. rewrite list_lookup_insert_eq by (by eapply lookup_lt_Some).
        split; [done|]. by simplify_eq.
      - exists g. by rewrite list_lookup_insert_ne. }
    cbn. by destruct (token2game w !! token g0).
Qed.

(** When the body asks for [end]. *)
Lemma open_pic_end_flag row col g g' b :
  open_pic row col g = inr (g', b) →
  b = true ↔
  (2 ≤ length (temp_opened_of (row, col) g))%nat ∧
  length (opened (items g')) = 16%nat.
Proof.
  intros Hpic.
  destruct (open_pic_inr_inv _ _ _ _ _ Hpic) as (it & Hit & Ho & Ht).
  destruct (open_pic_ok _ _ _ _ Hit Ho Ht) as (g1 & b1 & Hpic1 & _ & _ & Hb & _).
  rewrite Hpic in Hpic1. simplify_eq. apply bool_decide_eq_true.
Qed.

(** A tile that is [CLOSING] and is not the addressed one is [CLOSED] after
    the scan, and stays so through the rest of the call. *)
Lemma closing_cleaned row col g g' b r itr :
  open_pic row col g = inr (g', b) →
  r ≠ (row, col) →
  get_item (items g) r = Some itr → status itr = CLOSING →
  get_item (items (scanned (row, col) g)) r = Some (with_status CLOSED itr) ∧
  get_item (items g') r = Some (with_status CLOSED itr).
Proof.
  intros Hpic Hne Hr Hst.
  assert (close_item <$> get_item (marked (row, col) g) r
          = Some (with_status CLOSED itr)) as Hclose.
  { rewrite get_item_marked, decide_False, Hr by done. cbn.
    unfold close_item. by rewrite decide_True. }
  split; [by rewrite get_item_scanned|].
  rewrite (open_pic_other _ _ _ _ _ _ Hpic); [done|].
  intros Hin.
  assert (r ∈ temp_opened_of (row, col) g) as Hsel.
  { unfold resolved_pair in Hin.
    destruct (temp_opened_of (row, col) g) as [|p1 [|p2 rest]];
      [by apply elem_of_nil in Hin..|].
    rewrite !elem_of_cons in Hin. rewrite !elem_of_cons.
    destruct Hin as [?|[?|[]%elem_of_nil]]; auto. }
  apply elem_of_temp_opened_of in Hsel as (it0 & Hit0 & Hst0).
  rewrite get_item_marked, decide_False, Hr in Hit0 by done.
  simplify_eq. congruence.
Qed.

(** The first pick of a turn: the addressed tile ends [TEMP_OPEN], the
    score stays, [end] is not called. *)
Lemma first_pick row col g g' b it :
  open_pic row col g = inr (g', b) →
  count_status TEMP_OPEN (items g) = 0%nat →
  get_item (items g) (row, col) = Some it →
  temp_opened_of (row, col) g = [(row, col)] ∧
  get_item (items g') (row, col) = Some (with_status TEMP_OPEN it) ∧
  score g' = score g ∧ b = false.
Proof.
  intros Hpic Hcount Hit.
  pose proof (length_temp_opened_of (row, col) g) as Hlen.
  pose proof (addressed_in_temp_opened _ _ _ Hit) as Hin.
  rewrite Hcount in Hlen.
  assert (temp_opened_of (row, col) g = [(row, col)]) as Hsel.
  { destruct (temp_opened_of (row, col) g) as [|x [|y l]];
      [by apply elem_of_nil in Hin| |cbn in Hlen; lia].
    by apply list_elem_of_singleton in Hin as ->. }
  split; [done|].
  rewrite (open_pic_other _ _ _ _ _ _ Hpic)
    by (unfold resolved_pair; rewrite Hsel; apply not_elem_of_nil).
  rewrite get_item_marked, decide_True, Hit by done. split; [done|].
  apply (open_pic_single _ _ _ _ _ Hpic). rewrite Hsel. cbn. lia.
Qed.

(** The handler on a registered session, ended or not, whose addressed
    tile passes the check of line 132. *)
Lemma open_game_pic_result_any w tok game g row col it :
  session w tok game g →
  query_ok row = true → query_ok col = true →
  get_item (items g) (Z.to_nat row, Z.to_nat col) = Some it →
  status it ≠ OPEN → status it ≠ TEMP_OPEN →
  ∃ g1 b w' g',
    open_pic (Z.to_nat row) (Z.to_nat col) g = inr (g1, b) ∧
    open_game_pic row col tok w = (inr game, w') ∧
    heap w' !! game = Some g' ∧
    items g' = items g1 ∧ score g' = score g1.
Proof.
  intros Hs Hr Hc Hit Ho Ht.
  destruct (open_game_pic_ok _ _ _ _ _ _ _ Hs Hr Hc Hit Ho Ht)
    as (g1 & b & Hpic & Hres).
  destruct Hs as (Htok & Hg & Htg).
  pose proof (lookup_lt_Some _ _ _ Hg) as Hlt.
  exists g1, b. destruct (b && negb (ended g)).
  - eexists _, _. split; [done|]. split; [exact Hres|]. cbn.
    by rewrite list_lookup_insert_eq.
  - eexists _, _. split; [done|]. split; [exact Hres|]. cbn.
    by rewrite list_lookup_insert_eq.
Qed.

(** The addressed tile after the call: it keeps its id and is never
    [CLOSED]; it is [TEMP_OPEN] unless it is one of the resolved pair. *)
Lemma addressed_after row col g g' b it :
  open_pic row col g = inr (g', b) →
  get_item (items g) (row, col) = Some it →
  ∃ s, get_item (items g') (row, col) = Some (with_status s it) ∧
       s ≠ CLOSED ∧
       (s = TEMP_OPEN ∨ (row, col) ∈ resolved_pair (row, col) g).
Proof.
  intros Hpic Hit.
  destruct (decide ((row, col) ∈ resolved_pair (row, col) g)) as [Hin|Hout].
  - unfold resolved_pair in Hin.
    destruct (temp_opened_of (row, col) g) as [|p1 [|p2 rest]] eqn:Hsel;
      [by apply elem_of_nil in Hin..|].
    destruct (open_pic_pair _ _ _ _ _ _ _ _ Hpic Hsel)
      as (i1 & i2 & H1 & H2 & _ & Hp1 & Hp2 & _). cbn zeta in Hp1, Hp2.
    assert ((row, col) ∈ resolved_pair (row, col) g) as Hin'
      by (unfold resolved_pair; by rewrite Hsel).
    rewrite !elem_of_cons in Hin.
    destruct Hin as [<-|[<-|[]%elem_of_nil]]; simplify_eq;
      eexists; (split; [done|]); (split; [|by right]);
      by destruct (decide _).
  - exists TEMP_OPEN. split_and!; [|done|by left].
    rewrite (open_pic_other _ _ _ _ _ _ Hpic Hout).
    by rewrite get_item_marked, decide_True, Hit.
Qed.


(** A call that returns has passed the validation of its arguments and
    the check of line 132, and returns the session it was given. *)
Lemma open_game_pic_inr_inv w tok game g row col game' w' :
  session w tok game g →
  open_game_pic row col tok w = (inr game', w') →
  game' = game ∧ query_ok row = true ∧ query_ok col = true ∧
  ∃ it, get_item (items g) (Z.to_nat row, Z.to_nat col) = Some it ∧
        status it ≠ OPEN ∧ status it ≠ TEMP_OPEN.
Proof.
  intros (Htok & Hg & _). unfold open_game_pic, get_game_by_token.
  rewrite Htok. cbn.
  destruct (query_ok row); [|discriminate].
  destruct (query_ok col); [|discriminate]. cbn. rewrite Hg.
  destruct (open_pic _ _ g) as [e|[g1 b]] eqn:Hpic; [discriminate|].
  apply open_pic_inr_inv in Hpic. intros Hres.
  split_and!; [|done..].
  destruct b; [|by simplify_eq].
  destruct (end_ game (update_obj game g1 w)) as [[e|?] w'']; by simplify_eq.
Qed.

(** What the response shows of a tile: its id and its status, whatever the
    status is. *)
Lemma shown_tile_Game_json g p it :
  get_item (g_items g) p = Some it →
  shown_tile (Game_json g) p = Some (Item_json it).
Proof.
  unfold get_item, shown_tile, Game_json, field. cbn [assoc].
  rewrite decide_False by done. rewrite decide_True by done. cbn.
  rewrite list_lookup_fmap.
  destruct (g_items g !! p.1) as [row|]; [|done]. cbn.
  rewrite list_lookup_fmap. by intros ->.
Qed.

(** ** Claims about board construction *)

(** C1, as stated, fails: the session created with [demo_rnd] has its tile
    at (0,0) in status [CLOSING], the default of the [status] field. *)
Lemma C1_new_tiles_not_closed : ¬ new_tiles_closed_as_specified.
Proof.
  intros H.
  specialize (H "t" 0 demo_rnd empty_world 0%nat w_new (the_game w_new)
                (0%nat, 0%nat) {| photoId := 0; status := CLOSING |}).
  assert (CLOSING = CLOSED) as Habs; [|discriminate Habs].
  apply H; vm_compute; reflexivity.
Qed.

(** C1, amended: [create_game] always succeeds, registers the new session
    under its token, and the session's board is four rows of four tiles,
    every one of them in status [CLOSING]. *)
Theorem C1_new_tiles_closing tok now rnd w :
  ∃ game w' g,
    create_game tok now rnd w = (inr game, w') ∧
    heap w' !! game = Some g ∧ token2game w' !! tok = Some game ∧
    is_4x4 (items g) ∧ length (concat (items g)) = 16%nat ∧
    Forall (Forall (λ it, status it = CLOSING)) (items g).
Proof.
  rewrite create_game_heap.
  exists (length (heap w)).
  eexists. exists (set_end_timer (Some 65) (new_GameWithExtras tok now rnd)).
  split; [reflexivity|].
  change (items (set_end_timer (Some 65) (new_GameWithExtras tok now rnd)))
    with (createItems rnd []).
  split_and!.
  - cbn [heap]. rewrite lookup_app_r by reflexivity.
    rewrite Nat.sub_diag. reflexivity.
  - cbn [token2game]. apply lookup_insert_eq.
  - apply createItems_4x4.
  - rewrite createItems_concat, length_fmap. apply shuffle_photos0_length.
  - apply createItems_status.
Qed.

(** ** Claims about the reveal *)

(** C4: on a registered session and in-range coordinates, a reveal of a tile
    that is [OPEN] or [TEMP_OPEN] raises the 409 error and leaves the whole
    world, hence every tile and the score of the session, as it was. *)
Theorem C4_conflict_changes_nothing w tok game g row col it :
  session w tok game g →
  query_ok row = true → query_ok col = true →
  get_item (items g) (Z.to_nat row, Z.to_nat col) = Some it →
  status it = OPEN ∨ status it = TEMP_OPEN →
  open_game_pic row col tok w = (inl Conflict, w).
Proof.
  intros (Htok & Hg & _) Hr Hc Hit Hst.
  unfold open_game_pic, get_game_by_token. rewrite Htok, Hr, Hc. cbn.
  rewrite Hg. unfold open_pic. rewrite Hit. by rewrite decide_True.
Qed.

Lemma C4_conflict_changes_nothing_witness :
  status_at (items (the_game w_first)) (0%nat, 0%nat) = Some TEMP_OPEN ∧
  open_game_pic 0 0 "t" w_first = (inl Conflict, w_first).
Proof.
  split; [vm_compute; reflexivity|].
  apply (C4_conflict_changes_nothing w_first "t" 0%nat (the_game w_first) 0 0
           {| photoId := 0; status := TEMP_OPEN |}).
  - unfold session. vm_compute. auto.
  - reflexivity.
  - reflexivity.
  - vm_compute. reflexivity.
  - right. reflexivity.
Defined.

(** C3: when the selection of a reveal has a second entry and the two first
    entries carry the same [photoId], both tiles end [OPEN] and the score is
    30 higher; and whenever a call of the handler leaves some session with a
    score 30 higher, it has resolved such a pair on that session. *)
Theorem C3_match_opens_pair_and_scores_30 :
  (∀ w tok game g row col it p1 p2 rest i1 i2,
     session w tok game g → ended g = false →
     query_ok row = true → query_ok col = true →
     get_item (items g) (Z.to_nat row, Z.to_nat col) = Some it →
     status it ≠ OPEN → status it ≠ TEMP_OPEN →
     temp_opened_of (Z.to_nat row, Z.to_nat col) g = p1 :: p2 :: rest →
     get_item (items g) p1 = Some i1 → get_item (items g) p2 = Some i2 →
     photoId i1 = photoId i2 →
     ∃ w' g',
       open_game_pic row col tok w = (inr game, w') ∧
       heap w' !! game = Some g' ∧
       status_at (items g') p1 = Some OPEN ∧
       status_at (items g') p2 = Some OPEN ∧
       score g' = score g + 30)
  ∧
  (∀ row col tok w game g g',
     heap w !! game = Some g →
     heap (open_game_pic row col tok w).2 !! game = Some g' →
     score g' = score g + 30 →
     ∃ p1 p2 rest i1 i2,
       token2game w !! tok = Some game ∧
       temp_opened_of (Z.to_nat row, Z.to_nat col) g = p1 :: p2 :: rest ∧
       get_item (items g) p1 = Some i1 ∧ get_item (items g) p2 = Some i2 ∧
       photoId i1 = photoId i2 ∧
       status_at (items g') p1 = Some OPEN ∧
       status_at (items g') p2 = Some OPEN).
Proof.
  split.
  - intros w tok game g row col it p1 p2 rest i1 i2
      Hs He Hr Hc Hit Ho Ht Hsel H1 H2 Heq.
    destruct (open_game_pic_result _ _ _ _ _ _ _ Hs He Hr Hc Hit Ho Ht)
      as (g1 & b & w' & g' & Hpic & Hres & Hg' & Hits & Hsc & _).
    destruct (open_pic_pair _ _ _ _ _ _ _ _ Hpic Hsel)
      as (j1 & j2 & Hj1 & Hj2 & _ & Hp1 & Hp2 & Hscore).
    assert (j1 = i1) as -> by congruence. assert (j2 = i2) as -> by congruence.
    destruct (decide (photoId i1 = photoId i2)); [|done].
    exists w', g'. unfold status_at. rewrite Hits, Hp1, Hp2, Hsc.
    by split_and!.
  - intros row col tok w game g g' Hg Hg' Hscore.
    destruct (open_game_pic_cases row col tok w)
      as [Hw|(game0 & g0 & g1 & b & g2 & Htok & Hg0 & _ & _ & Hpic & Hheap & Hits & Hsc)].
    { rewrite Hw in Hg'. simplify_eq. lia. }
    rewrite Hheap in Hg'.
    destruct (decide (game0 = game)) as [->|Hne];
      [|rewrite list_lookup_insert_ne in Hg' by done; simplify_eq; lia].
    rewrite list_lookup_insert_eq in Hg' by (by eapply lookup_lt_Some).
    simplify_eq.
    destruct (temp_opened_of (Z.to_nat row, Z.to_nat col) g)
      as [|p1 [|p2 rest]] eqn:Hsel.
    + destruct (open_pic_single _ _ _ _ _ Hpic) as [? _];
        [rewrite Hsel; cbn; lia|lia].
    + destruct (open_pic_single _ _ _ _ _ Hpic) as [? _];
        [rewrite Hsel; cbn; lia|lia].
    + destruct (open_pic_pair _ _ _ _ _ _ _ _ Hpic Hsel)
        as (i1 & i2 & H1 & H2 & _ & Hp1 & Hp2 & Hscore1).
      destruct (decide (photoId i1 = photoId i2)) as [Heq|Hneq]; [|lia].
      exists p1, p2, rest, i1, i2. unfold status_at.
      rewrite Hits, Hp1, Hp2. by split_and!.
Qed.

Lemma C3_match_opens_pair_and_scores_30_witness :
  ∃ w' g',
    open_game_pic 2 0 "t" w_first = (inr 0%nat, w') ∧
    heap w' !! 0%nat = Some g' ∧
    status_at (items g') (0%nat, 0%nat) = Some OPEN ∧
    status_at (items g') (2%nat, 0%nat) = Some OPEN ∧
    score g' = score (the_game w_first) + 30.
Proof.
  apply (proj1 C3_match_opens_pair_and_scores_30
           w_first "t" 0%nat (the_game w_first) 2 0
           {| photoId := 0; status := CLOSED |}
           (0%nat, 0%nat) (2%nat, 0%nat) []
           {| photoId := 0; status := TEMP_OPEN |}
           {| photoId := 0; status := CLOSED |}).
  - unfold session. vm_compute. auto.
  - reflexivity.
  - reflexivity.
  - reflexivity.
  - vm_compute. reflexivity.
  - discriminate.
  - discriminate.
  - vm_compute. reflexivity.
  - vm_compute. reflexivity.
  - vm_compute. reflexivity.
  - reflexivity.
Defined.

(** C2, as stated, fails: after the mismatch of (0,0) and (0,1) in the
    sample session, a next reveal of (0,1) itself leaves that tile
    [TEMP_OPEN], not [CLOSED]. *)
Lemma C2_next_reveal_may_reselect : ¬ mismatch_as_specified.
Proof.
  intros H.
  assert (session w_first "t" 0 (the_game w_first)) as Hs.
  { unfold session. vm_compute. auto. }
  assert (get_item (items (the_game w_first)) (Z.to_nat 0, Z.to_nat 1)
          = Some {| photoId := 1; status := CLOSED |}) as H1
    by (vm_compute; reflexivity).
  assert (count_status TEMP_OPEN (items (the_game w_first)) = 1%nat) as H2
    by (vm_compute; reflexivity).
  assert (get_item (items (the_game w_first)) (0%nat, 0%nat)
          = Some {| photoId := 0; status := TEMP_OPEN |}) as H3
    by (vm_compute; reflexivity).
  destruct (H w_first "t" 0%nat (the_game w_first) 0 1 _ (0%nat, 0%nat) _ 0 1
              Hs eq_refl eq_refl eq_refl H1 ltac:(discriminate)
              ltac:(discriminate) H2 H3 eq_refl ltac:(discriminate)
              eq_refl eq_refl)
    as (w1 & g1 & Hres & Hg1 & _ & _ & _ & Hnext).
  assert (w1 = w_mismatch) as -> by exact (eq_sym (f_equal snd Hres)).
  assert (g1 = the_game w_mismatch) as ->
    by (unfold the_game; rewrite Hg1; reflexivity).
  specialize (Hnext (the_game (open_game_pic 0 1 "t" w_mismatch).2)
                    (0%nat, 1%nat)).
  assert (Some TEMP_OPEN = Some CLOSED) as Habs; [|discriminate Habs].
  apply Hnext; vm_compute; reflexivity.
Qed.

(** C2, amended.  On a registered session that has not ended, with a board
    of four by four: when a reveal makes the second selection of a turn and
    the two selected tiles carry different ids, the call succeeds, both
    tiles become [CLOSING], the score is 10 lower and the session stays
    registered.  Nothing but a reveal writes to the board afterwards, and a
    next reveal that raises the 409 error writes nothing either.  A next
    reveal that passes the check turns every tile that is [CLOSING], other
    than the one it addresses, to [CLOSED] in its scan, before lines 145-160
    resolve anything; the tile it addresses becomes its selection and ends
    [TEMP_OPEN]. *)
Theorem C2_mismatch_closes_on_next_reveal w tok game g row col it q itq :
  session w tok game g → ended g = false → is_4x4 (items g) →
  query_ok row = true → query_ok col = true →
  get_item (items g) (Z.to_nat row, Z.to_nat col) = Some it →
  status it ≠ OPEN → status it ≠ TEMP_OPEN →
  count_status TEMP_OPEN (items g) = 1%nat →
  get_item (items g) q = Some itq → status itq = TEMP_OPEN →
  photoId it ≠ photoId itq →
  ∃ w1 g1,
    open_game_pic row col tok w = (inr game, w1) ∧
    session w1 tok game g1 ∧ ended g1 = false ∧
    status_at (items g1) (Z.to_nat row, Z.to_nat col) = Some CLOSING ∧
    status_at (items g1) q = Some CLOSING ∧
    score g1 = score g - 10 ∧
    (∀ o, (∀ r c t, o ≠ OpOpen r c t) →
       ∃ g1', heap (step o w1) !! game = Some g1' ∧
              items g1' = items g1 ∧ score g1' = score g1) ∧
    (∀ row' col' it',
       query_ok row' = true → query_ok col' = true →
       get_item (items g1) (Z.to_nat row', Z.to_nat col') = Some it' →
       (status it' = OPEN ∨ status it' = TEMP_OPEN →
        open_game_pic row' col' tok w1 = (inl Conflict, w1)) ∧
       (status it' ≠ OPEN → status it' ≠ TEMP_OPEN →
        ∃ w2 g2,
          open_game_pic row' col' tok w1 = (inr game, w2) ∧
          heap w2 !! game = Some g2 ∧
          status_at (items g2) (Z.to_nat row', Z.to_nat col') = Some TEMP_OPEN ∧
          ∀ r, r ≠ (Z.to_nat row', Z.to_nat col') →
               status_at (items g1) r = Some CLOSING →
               status_at
                 (items (scanned (Z.to_nat row', Z.to_nat col') g1)) r
               = Some CLOSED ∧
               status_at (items g2) r = Some CLOSED)).
Proof.
  intros Hs He H4 Hr Hc Hit Ho Ht Hcount Hq Hqst Hneq.
  set (p := (Z.to_nat row, Z.to_nat col)) in *.
  destruct (open_game_pic_result _ _ _ _ _ _ _ Hs He Hr Hc Hit Ho Ht)
    as (g1 & b & w1 & g1' & Hpic & Hres & Hg1 & Hits & Hsc & Htok1 & Hend & Hreg).
  (* the pair that is resolved *)
  assert (get_item (items g1) p = Some (with_status CLOSING it) ∧
          get_item (items g1) q = Some (with_status CLOSING itq) ∧
          score g1 = score g - 10 ∧
          length (temp_opened_of p g) = 2%nat) as (Hp1 & Hq1 & Hscore & Hlen2).
  { destruct (temp_opened_of_second p g it q itq Hit Ht Hcount Hq Hqst)
      as [Hsel|Hsel];
      destruct (open_pic_pair _ _ _ _ _ _ _ _ Hpic Hsel)
        as (i1 & i2 & H1 & H2 & _ & Hr1 & Hr2 & Hsc1);
      cbn zeta in Hr1, Hr2;
      (destruct (decide (photoId i1 = photoId i2)); [congruence|]);
      rewrite Hsel; split_and!; try congruence; try done; lia. }
  (* the body did not ask for [end] *)
  assert (b = false) as ->.
  { destruct b; [|done]. exfalso.
    destruct (proj1 (open_pic_end_flag _ _ _ _ _ Hpic) eq_refl) as [_ H16].
    destruct (open_pic_obj_rel _ _ _ _ _ Hpic) as [(_ & _ & Hshape & _) _].
    apply opened_16_all in H16; [|unfold is_4x4 in *; congruence].
    apply get_item_concat in Hp1.
    by apply (proj1 (Forall_forall _ _) H16) in Hp1. }
  assert (count_status TEMP_OPEN (items g1') = 0%nat) as Hzero.
  { rewrite Hits.
    apply (temp_count_after _ _ _ _ _ Hpic); [lia|done]. }
  destruct Hs as (Htok & Hg & Htg).
  assert (session w1 tok game g1') as Hs1.
  { split_and!; [by rewrite Hreg|done|done]. }
  exists w1, g1'. unfold status_at. rewrite Hits, Hsc, Hp1, Hq1.
  split_and!; try done.
  - intros o Hno. destruct (step_other_keeps_board o w1 game g1' Hno Hg1)
      as (g' & ? & ? & ?). exists g'. split_and!; congruence.
  - intros row' col' it' Hr' Hc' Hit'. rewrite <- Hits in Hit'. split.
    + by apply (open_game_pic_conflict w1 tok game g1').
    + intros Ho' Ht'.
      destruct (open_game_pic_result _ _ _ _ _ _ _ Hs1 Hend Hr' Hc' Hit' Ho' Ht')
        as (g2 & b2 & w2 & g2' & Hpic2 & Hres2 & Hg2 & Hits2 & _).
      exists w2, g2'. split; [done|]. split; [done|]. rewrite Hits2.
      destruct (first_pick _ _ _ _ _ _ Hpic2 Hzero Hit') as (_ & -> & _).
      split; [done|]. intros r Hne Hcl. rewrite <- Hits in Hcl.
      destruct (get_item (items g1') r) as [itr|] eqn:Hitr; [|done].
      destruct (closing_cleaned _ _ _ _ _ _ _ Hpic2 Hne Hitr) as [-> ->];
        [by simplify_eq/=|done].
Qed.

Lemma C2_mismatch_closes_on_next_reveal_witness :
  ∃ w1 g1,
    open_game_pic 0 1 "t" w_first = (inr 0%nat, w1) ∧
    status_at (items g1) (0%nat, 1%nat) = Some CLOSING ∧
    status_at (items g1) (0%nat, 0%nat) = Some CLOSING ∧
    score g1 = score (the_game w_first) - 10.
Proof.
  destruct (C2_mismatch_closes_on_next_reveal
              w_first "t" 0%nat (the_game w_first) 0 1
              {| photoId := 1; status := CLOSED |} (0%nat, 0%nat)
              {| photoId := 0; status := TEMP_OPEN |})
    as (w1 & g1 & Hres & _ & _ & Hp & Hq & Hsc & _).
  - unfold session. vm_compute. auto.
  - reflexivity.
  - vm_compute. reflexivity.
  - reflexivity.
  - reflexivity.
  - vm_compute. reflexivity.
  - discriminate.
  - discriminate.
  - vm_compute. reflexivity.
  - vm_compute. reflexivity.
  - reflexivity.
  - discriminate.
  - exists w1, g1. auto.
Defined.

(** C10: on a registered session and in-range coordinates of an existing
    tile, the reveal raises the 409 error exactly when the tile is [OPEN] or
    [TEMP_OPEN].  A tile that is [CLOSING] is revealed: the call returns the
    session, line 135 makes the tile [TEMP_OPEN], the tile is in the list
    [temp_opened] of the call, it is not [CLOSED] afterwards, and when no
    tile was selected before the call it ends [TEMP_OPEN] with the score
    unchanged. *)
Theorem C10_conflict_iff_visible w tok game g row col it :
  session w tok game g →
  query_ok row = true → query_ok col = true →
  get_item (items g) (Z.to_nat row, Z.to_nat col) = Some it →
  ((open_game_pic row col tok w).1 = inl Conflict ↔
   status it = OPEN ∨ status it = TEMP_OPEN) ∧
  (status it = CLOSING →
   ∃ w' g',
     open_game_pic row col tok w = (inr game, w') ∧
     heap w' !! game = Some g' ∧
     status_at (marked (Z.to_nat row, Z.to_nat col) g)
               (Z.to_nat row, Z.to_nat col) = Some TEMP_OPEN ∧
     (Z.to_nat row, Z.to_nat col)
       ∈ temp_opened_of (Z.to_nat row, Z.to_nat col) g ∧
     status_at (items g') (Z.to_nat row, Z.to_nat col) ≠ Some CLOSED ∧
     (count_status TEMP_OPEN (items g) = 0%nat →
      status_at (items g') (Z.to_nat row, Z.to_nat col) = Some TEMP_OPEN ∧
      score g' = score g)).
Proof.
  intros Hs Hr Hc Hit. split.
  - split.
    + intros Hconf.
      destruct (decide (status it = OPEN)) as [|Ho]; [auto|].
      destruct (decide (status it = TEMP_OPEN)) as [|Ht]; [auto|].
      destruct (open_game_pic_result_any _ _ _ _ _ _ _ Hs Hr Hc Hit Ho Ht)
        as (g1 & b & w' & g' & _ & Hres & _).
      rewrite Hres in Hconf. discriminate Hconf.
    + intros Hst.
      by rewrite (open_game_pic_conflict _ _ _ _ _ _ _ Hs Hr Hc Hit Hst).
  - intros Hst.
    destruct (open_game_pic_result_any _ _ _ _ _ _ _ Hs Hr Hc Hit)
      as (g1 & b & w' & g' & Hpic & Hres & Hg' & Hits & Hsc); [congruence..|].
    exists w', g'. split; [done|]. split; [done|].
    unfold status_at. rewrite Hits, Hsc.
    rewrite get_item_marked, decide_True, Hit by done.
    split; [done|]. split; [by eapply addressed_in_temp_opened|].
    destruct (addressed_after _ _ _ _ _ _ Hpic Hit) as (s & Hpa & Hs' & _).
    split; [rewrite Hpa; cbn; congruence|].
    intros Hzero.
    destruct (first_pick _ _ _ _ _ _ Hpic Hzero Hit) as (_ & Hp & Hscore & _).
    rewrite Hp. done.
Qed.

Lemma C10_conflict_iff_visible_witness :
  status_at (items (the_game w_mismatch)) (0%nat, 1%nat) = Some CLOSING ∧
  ∃ w' g',
    open_game_pic 0 1 "t" w_mismatch = (inr 0%nat, w') ∧
    heap w' !! 0%nat = Some g' ∧
    status_at (items g') (0%nat, 1%nat) = Some TEMP_OPEN.
Proof.
  split; [vm_compute; reflexivity|].
  destruct (C10_conflict_iff_visible w_mismatch "t" 0%nat
              (the_game w_mismatch) 0 1
              {| photoId := 1; status := CLOSING |})
    as [_ Hclosing].
  - unfold session. vm_compute. auto.
  - reflexivity.
  - reflexivity.
  - vm_compute. reflexivity.
  - destruct (Hclosing eq_refl)
      as (w' & g' & Hres & Hg' & _ & _ & _ & Hfirst).
    exists w', g'. split; [done|]. split; [done|].
    apply Hfirst. vm_compute. reflexivity.
Defined.




(** ** Claims about the end of a session *)

(** C5: on a registered session that has not ended, with a board of four by
    four, when a reveal returns and leaves every tile of the session [OPEN]:
    the session object has [ended] set and its token is out of the registry,
    so [get_game_by_token] and [open_game_pic] with that token raise the 404
    error, now and after any further requests that do not register the
    token anew. *)
Theorem C5_all_open_ends_session w tok game g row col game' w' g' :
  session w tok game g → ended g = false → is_4x4 (items g) →
  open_game_pic row col tok w = (inr game', w') →
  heap w' !! game = Some g' →
  Forall (λ it, status it = OPEN) (concat (items g')) →
  game' = game ∧ ended g' = true ∧ token2game w' !! tok = None ∧
  get_game_by_token tok w' = (inl NotFound, w') ∧
  (∀ r c, open_game_pic r c tok w' = (inl NotFound, w')) ∧
  (∀ ops r c,
     tok ∉ created_tokens ops →
     get_game_by_token tok (run ops w') = (inl NotFound, run ops w') ∧
     open_game_pic r c tok (run ops w') = (inl NotFound, run ops w')).
Proof.
  intros Hs He H4 Hres Hg' Hall.
  destruct (open_game_pic_inr_inv _ _ _ _ _ _ _ _ Hs Hres)
    as (-> & Hr & Hc & it & Hit & Ho & Ht).
  destruct (open_game_pic_result _ _ _ _ _ _ _ Hs He Hr Hc Hit Ho Ht)
    as (g1 & b & w1 & g1' & Hpic & Hres1 & Hg1 & Hits & _ & _ & Hend & Hreg).
  rewrite Hres in Hres1. injection Hres1 as <-.
  rewrite Hg' in Hg1. injection Hg1 as <-. rewrite Hits in Hall.
  assert (ended g' = true) as Hb.
  { rewrite Hend. apply (open_pic_end_flag _ _ _ _ _ Hpic). split.
    - destruct (addressed_after _ _ _ _ _ _ Hpic Hit)
        as (s & Hp & _ & [->|Hin]).
      + apply get_item_concat in Hp.
        by apply (proj1 (Forall_forall _ _) Hall) in Hp.
      + unfold resolved_pair in Hin.
        destruct (temp_opened_of _ g) as [|p1 [|p2 rest]];
          [by apply elem_of_nil in Hin..|]. cbn. lia.
    - apply opened_16_all; [|done].
      destruct (open_pic_obj_rel _ _ _ _ _ Hpic) as [(_ & _ & Hshape & _) _].
      unfold is_4x4 in *. congruence. }
  assert (token2game w' !! tok = None) as Hnone.
  { rewrite Hreg, <- Hend, Hb. apply lookup_delete_eq. }
  assert (∀ w2, token2game w2 !! tok = None →
            get_game_by_token tok w2 = (inl NotFound, w2) ∧
            ∀ r c, open_game_pic r c tok w2 = (inl NotFound, w2)) as Hgone.
  { intros w2 Hw2. unfold open_game_pic, get_game_by_token.
    by rewrite Hw2. }
  split_and!; [done|done|done|by apply Hgone|by apply Hgone|].
  intros ops r c Hfresh.
  destruct (Hgone (run ops w')) as [? ?]; [by apply run_registry|]. auto.
Qed.

Lemma C5_all_open_ends_session_witness :
  ended (the_game (open_game_pic 3 3 "t" w_last).2) = true ∧
  get_game_by_token "t" (open_game_pic 3 3 "t" w_last).2
  = (inl NotFound, (open_game_pic 3 3 "t" w_last).2).
Proof.
  destruct (C5_all_open_ends_session w_last "t" 0%nat (the_game w_last) 3 3
              0%nat (open_game_pic 3 3 "t" w_last).2
              (the_game (open_game_pic 3 3 "t" w_last).2))
    as (_ & Hended & _ & Hget & _).
  - unfold session. vm_compute. auto.
  - vm_compute. reflexivity.
  - vm_compute. reflexivity.
  - vm_compute. reflexivity.
  - vm_compute. reflexivity.
  - vm_compute. repeat constructor.
  - split; assumption.
Defined.

(** ** Claims about responses *)

(** C6, as stated, fails: the response to the creation of the sample
    session shows the id 0 of its tile at (0,0), which is [CLOSING]. *)
Lemma C6_closed_ids_shown : ¬ hidden_ids_as_specified.
Proof.
  intros H.
  assert (Some (JNum 0) = None) as Habs; [|discriminate Habs].
  rewrite <- (H "t" 0 demo_rnd empty_world 0%nat w_new (the_game w_new)
                (Game_json (to_Game (the_game w_new))) (0%nat, 0%nat)
                {| photoId := 0; status := CLOSING |});
    try (vm_compute; reflexivity).
  right. reflexivity.
Qed.

(** C6, amended: the response built for a session object shows, for every
    tile of its board, the [photoId] and the status of the tile, whatever
    the status is; no tile's id is withheld. *)
Theorem C6_response_shows_every_id w game g p it :
  heap w !! game = Some g →
  get_item (items g) p = Some it →
  ∃ body,
    response_body game w = Some body ∧
    shown_photoId body p = Some (JNum (photoId it)) ∧
    shown_status body p = Some (JStr (ImgStatus_value (status it))).
Proof.
  intros Hg Hit. exists (Game_json (to_Game g)).
  unfold response_body, shown_photoId, shown_status. rewrite Hg.
  split; [done|].
  rewrite (shown_tile_Game_json (to_Game g) p it Hit). cbn.
  rewrite decide_True by done. rewrite decide_False by done.
  by rewrite decide_True by done.
Qed.

Lemma C6_response_shows_every_id_witness :
  status_at (items (the_game w_first)) (1%nat, 2%nat) = Some CLOSED ∧
  ∃ body,
    response_body 0%nat w_first = Some body ∧
    shown_photoId body (1%nat, 2%nat) = Some (JNum 6).
Proof.
  split; [vm_compute; reflexivity|].
  destruct (C6_response_shows_every_id w_first 0%nat (the_game w_first)
              (1%nat, 2%nat) {| photoId := 6; status := CLOSED |})
    as (body & Hbody & Hid & _).
  - vm_compute. reflexivity.
  - vm_compute. reflexivity.
  - exists body. split; assumption.
Defined.

(** ** Claims about the board invariant *)

(** C7: in every world the process can reach, every session object has a
    board of four rows of four tiles, sixteen in all, on which each id from
    0 to 7 occurs exactly twice and no other id occurs; and no step of the
    process, be it a request or the firing of a timer (which runs [end]),
    changes the id of any tile of any existing session or the shape of its
    board. *)
Theorem C7_board_invariant :
  (∀ ops game g,
     heap (run ops empty_world) !! game = Some g →
     is_4x4 (items g) ∧ length (concat (items g)) = 16%nat ∧
     ∀ v, occurrences v (items g)
          = if decide (0 ≤ v < 8) then 2%nat else 0%nat)
  ∧
  (∀ o w game g,
     heap w !! game = Some g →
     ∃ g', heap (step o w) !! game = Some g' ∧
           photo_grid (items g') = photo_grid (items g))
  ∧
  (∀ self w game g,
     heap w !! game = Some g →
     ∃ g', heap (end_ self w).2 !! game = Some g' ∧
           photo_grid (items g') = photo_grid (items g)).
Proof.
  split_and!.
  - intros ops game g Hg. pose proof (run_boards_ok _ _ _ Hg) as Hok.
    split_and!; [apply Hok|apply is_4x4_length, Hok|].
    intros v. by apply board_ok_occurrences.
  - intros o w game g Hg.
    destruct (step_heap_ext o w _ _ Hg) as (g' & Hg' & _ & Hgrid & _).
    by exists g'.
  - intros self w game g Hg.
    destruct (end_heap_ext self w _ _ Hg) as (g' & Hg' & _ & Hgrid & _).
    by exists g'.
Qed.

Lemma C7_board_invariant_witness :
  heap (run [OpCreate "t" 0 demo_rnd; OpOpen 0 0 "t"; OpOpen 0 1 "t"]
            empty_world) !! 0%nat
  = Some (the_game w_mismatch) ∧
  is_4x4 (items (the_game w_mismatch)) ∧
  occurrences 5 (items (the_game w_mismatch)) = 2%nat.
Proof.
  assert (heap (run [OpCreate "t" 0 demo_rnd; OpOpen 0 0 "t"; OpOpen 0 1 "t"]
                    empty_world) !! 0%nat
          = Some (the_game w_mismatch)) as Hg by (vm_compute; reflexivity).
  destruct (proj1 C7_board_invariant _ _ _ Hg) as (H4 & _ & Hocc).
  split; [exact Hg|]. split; [exact H4|]. exact (Hocc 5).
Defined.

(** ** Calls in several threads: uninterrupted threads *)

Lemma tsteps_done n r w : tsteps n (TDone r, w) = (TDone r, w).
Proof. induction n as [|n IH]; [done|]. exact IH. Qed.

Lemma tsteps_S n t w : tsteps (S n) (t, w) = tsteps n (tstep t w).
Proof. reflexivity. Qed.

Lemma update_obj_twice self g1 g2 w :
  update_obj self g2 (update_obj self g1 w) = update_obj self g2 w.
Proof. unfold update_obj. cbn. by rewrite list_insert_insert_eq. Qed.

(** [end] run from line 70 to line 73 without another thread in between:
    the three stretches are the method [end_]. *)
Lemma end_alone self ret w n :
  tsteps (3 + n) (TEndTest self ret, w)
  = (TDone (outcome_of (λ _ : (), ret) (end_ self w).1), (end_ self w).2).
Proof.
  unfold end_.
  change (tsteps (3 + n) (TEndTest self ret, w))
    with (tsteps (2 + n) (tstep (TEndTest self ret) w)).
  cbn [tstep]. unfold on_obj.
  destruct (heap w !! self) as [g|] eqn:Hg; [|apply tsteps_done].
  destruct (ended g) eqn:He; [apply tsteps_done|].
  change (tsteps (2 + n) (TEndSet self ret, w))
    with (tsteps (1 + n) (tstep (TEndSet self ret) w)).
  cbn [tstep]. unfold on_obj. rewrite Hg.
  set (g1 := set_ended_event true (set_ended true g)).
  change (tsteps (1 + n) (TEndPop self ret, update_obj self g1 w))
    with (tsteps n (tstep (TEndPop self ret) (update_obj self g1 w))).
  cbn [tstep]. unfold on_obj.
  rewrite (heap_update_obj_eq _ _ _ _ Hg).
  change (token g1) with (token g).
  change (token2game (update_obj self g1 w)) with (token2game w).
  destruct (token2game w !! token g); apply tsteps_done.
Qed.

(** A reveal run from the lookup of its token to its return without another
    thread in between: the stretches are the handler [open_game_pic]. *)
Lemma reveal_alone row col tok w :
  tsteps 8 (TStart row col tok, w)
  = (TDone (outcome_of Some (open_game_pic row col tok w).1),
     (open_game_pic row col tok w).2).
Proof.
  unfold open_game_pic.
  rewrite tsteps_S.
  cbn [tstep]. unfold get_game_by_token.
  destruct (token2game w !! tok) as [game|]; [|apply tsteps_done].
  destruct (negb (query_ok row && query_ok col)); [apply tsteps_done|].
  rewrite tsteps_S.
  cbn [tstep]. unfold on_obj at 1.
  destruct (heap w !! game) as [g|] eqn:Hg; [|apply tsteps_done].
  unfold open_pic.
  destruct (get_item (items g) (Z.to_nat row, Z.to_nat col)) as [it|];
    [|apply tsteps_done].
  destruct (decide (status it = OPEN ∨ status it = TEMP_OPEN));
    [apply tsteps_done|].
  set (its := set_status TEMP_OPEN (Z.to_nat row, Z.to_nat col) (items g)).
  rewrite tsteps_S.
  cbn [tstep]. unfold on_obj at 1.
  rewrite (heap_update_obj_eq _ _ _ _ Hg).
  change (items (set_items its g)) with its.
  destruct (scan its) as [scanned temp].
  rewrite update_obj_twice.
  change (set_items scanned (set_items its g)) with (set_items scanned g).
  set (g1 := set_items scanned g).
  rewrite tsteps_S.
  destruct temp as [|item1 [|item2 rest]]; [apply tsteps_done..|].
  cbn [tstep]. unfold on_obj at 1.
  rewrite (heap_update_obj_eq _ _ _ _ Hg), update_obj_twice.
  set (g2 := resolve item1 item2 g1).
  rewrite tsteps_S.
  cbn [tstep]. unfold on_obj at 1.
  rewrite (heap_update_obj_eq _ _ _ _ Hg).
  destruct (bool_decide (length (opened (items g2)) = 16%nat));
    [|apply tsteps_done].
  rewrite (end_alone game (Some game) (update_obj game g2 w) 0 : tsteps 3 _ = _).
  by destruct (end_ game (update_obj game g2 w)) as [[e|[]] w'].
Qed.

(** Every thread is over after eight stretches, and when no other thread
    ran in between it has done what the request does as one step. *)
Lemma thread_alone o w :
  tsteps 8 (thread_of o, w) = (TDone (result_of o w), step o w).
Proof.
  destruct o as [tok now rnd|tok|row col tok|self]; cbn [thread_of].
  - rewrite tsteps_S. cbn [tstep result_of step].
    destruct (create_game tok now rnd w) as [r w']. apply tsteps_done.
  - rewrite tsteps_S. cbn [tstep result_of step].
    destruct (get_game_by_token tok w) as [r w']. apply tsteps_done.
  - apply reveal_alone.
  - apply (end_alone self None w 5).
Qed.

(** The scheduler giving [n] turns in a row to thread [i]. *)
Lemma run_sched_replicate n i ts t w :
  ts !! i = Some t →
  run_sched (replicate n i) (ts, w)
  = (<[i := (tsteps n (t, w)).1]> ts, (tsteps n (t, w)).2).
Proof.
  revert ts t w. induction n as [|n IH]; intros ts t w Hi.
  - cbn. by rewrite list_insert_id.
  - cbn [replicate tsteps fst snd]. unfold run_sched. cbn [foldl].
    unfold sched_step at 2. cbn [fst snd]. rewrite Hi.
    destruct (tstep t w) as [t' w'] eqn:Ht.
    fold (run_sched (replicate n i) (<[i:=t']> ts, w')).
    rewrite (IH _ t' w').
    + by rewrite list_insert_insert_eq.
    + apply list_lookup_insert_eq. by eapply lookup_lt_Some.
Qed.

Lemma run_sched_app s1 s2 σ :
  run_sched (s1 ++ s2) σ = run_sched s2 (run_sched s1 σ).
Proof. unfold run_sched. apply foldl_app. Qed.

(** The schedule that runs the threads one after the other gives, thread by
    thread, the results and the world of the sequential history [run]. *)
Lemma serial_run ops pre w :
  run_sched (serial_from (length pre) (length ops)) (pre ++ (thread_of <$> ops), w)
  = (pre ++ results ops w, run ops w).
Proof.
  revert pre w. induction ops as [|o ops IH]; intros pre w; [done|].
  cbn [length fmap list_fmap results]. unfold serial_from.
  cbn [seq fmap list_fmap concat]. rewrite run_sched_app.
  rewrite (run_sched_replicate 8 (length pre) _ (thread_of o)).
  2:{ rewrite lookup_app_r by lia. by rewrite Nat.sub_diag. }
  rewrite thread_alone. cbn [fst snd].
  assert (<[length pre := TDone (result_of o w)]>
            (pre ++ thread_of o :: (thread_of <$> ops))
          = (pre ++ [TDone (result_of o w)]) ++ (thread_of <$> ops)) as ->.
  { rewrite insert_app_r_alt by lia. rewrite Nat.sub_diag. cbn.
    by rewrite <- app_assoc. }
  specialize (IH (pre ++ [TDone (result_of o w)]) (step o w)).
  rewrite length_app in IH. cbn [length] in IH.
  replace (length pre + 1)%nat with (S (length pre)) in IH by lia.
  unfold serial_from in IH. rewrite IH.
  by rewrite <- app_assoc.
Qed.

Lemma results_done ops w : Forall is_done (results ops w).
Proof.
  revert w. induction ops as [|o ops IH]; intros w; constructor; [done|apply IH].
Qed.

(** ** Calls in several threads: boards with one selected tile *)

(** A call that runs on its own keeps every board at one selected tile at
    most. *)
Lemma quiet_step o w : quiet w → quiet (step o w).
Proof.
  intros Hq game g.
  destruct o as [tok now rnd|tok|row col tok|self]; cbn.
  - rewrite create_game_heap. cbn.
    intros [Hg|[_ Hg]]%lookup_app_Some; [by eapply Hq|].
    apply list_lookup_singleton_Some in Hg as [_ <-].
    change (items (set_end_timer (Some 65) (new_GameWithExtras tok now rnd)))
      with (createItems rnd []).
    unfold count_status.
    assert (filter (λ it, status it = TEMP_OPEN) (concat (createItems rnd []))
            = []) as ->; [|cbn; lia].
    rewrite createItems_concat. generalize (shuffle rnd photos0). intros l.
    induction l as [|x l IHl]; [done|]. cbn [fmap list_fmap].
    by rewrite filter_cons, decide_False.
  - unfold get_game_by_token. destruct (token2game w !! tok); apply Hq.
  - destruct (open_game_pic_cases row col tok w)
      as [->|(game0 & g0 & g1 & b & g2 & _ & Hg0 & _ & _ & Hpic & -> & Hits & _)];
      [apply Hq|].
    intros [(-> & <- & _)|[_ Hg]]%list_lookup_insert_Some; [|by eapply Hq].
    rewrite Hits. eapply temp_count_after; [done|]. by eapply Hq.
  - unfold timer_fires, end_.
    destruct (heap w !! self) as [g0|] eqn:Hg0; [|apply Hq].
    destruct (ended g0); [apply Hq|].
    assert (<[self := set_ended_event true (set_ended true g0)]> (heap w)
              !! game = Some g → (count_status TEMP_OPEN (items g) ≤ 1)%nat)
      as Hins.
    { intros [(-> & <- & _)|[_ Hg]]%list_lookup_insert_Some;
        [exact (Hq _ _ Hg0)|by eapply Hq]. }
    cbn. by destruct (token2game w !! token g0).
Qed.

Lemma quiet_run ops w : quiet w → quiet (run ops w).
Proof.
  intros Hq. induction ops as [|o ops IH] using rev_ind; [done|].
  rewrite run_snoc. by apply quiet_step.
Qed.

Lemma quiet_empty : quiet empty_world.
Proof. intros game g. cbn. by rewrite lookup_nil. Qed.

(** In every world the process reaches by steps that run one after the
    other, a board has at most one selected tile. *)
Lemma run_temp_count ops game g :
  heap (run ops empty_world) !! game = Some g →
  (count_status TEMP_OPEN (items g) ≤ 1)%nat.
Proof. apply (quiet_run ops empty_world quiet_empty). Qed.

(** The sessions the theorems above speak of are the ones the process has:
    in a world reached from the start, a registered token names a session
    object that carries the token, has not ended, has a well-formed board
    and at most one selected tile. *)
Lemma reachable_session ops tok game :
  token2game (run ops empty_world) !! tok = Some game →
  ∃ g, session (run ops empty_world) tok game g ∧ ended g = false ∧
       is_4x4 (items g) ∧ (count_status TEMP_OPEN (items g) ≤ 1)%nat.
Proof.
  intros Htok.
  destruct (world_ok_run ops _ world_ok_empty _ _ Htok) as (g & Hg & Ht & He).
  exists g. split_and!; [done..| |].
  - by apply (run_boards_ok _ _ _ Hg).
  - by apply (run_temp_count _ _ _ Hg).
Qed.

(** The score after a reveal that ran on its own. *)
Lemma reveal_score row col tok w game g g' :
  token2game w !! tok = Some game →
  heap w !! game = Some g →
  heap (open_game_pic row col tok w).2 !! game = Some g' →
  score g' = score g ∨ score g' = score g + 30 ∨ score g' = score g - 10.
Proof.
  intros Htok Hg Hg'.
  destruct (open_game_pic_cases row col tok w)
    as [Hw|(game0 & g0 & g1 & b & g2 & Htok0 & Hg0 & _ & _ & Hpic & Hh & _ & Hsc)].
  { rewrite Hw in Hg'. left. congruence. }
  rewrite Hh in Hg'. assert (game0 = game) as -> by congruence.
  assert (g0 = g) as -> by congruence.
  rewrite list_lookup_insert_eq in Hg' by (by eapply lookup_lt_Some).
  assert (g2 = g') as -> by congruence. rewrite Hsc.
  destruct (temp_opened_of (Z.to_nat row, Z.to_nat col) g)
    as [|p1 [|p2 rest]] eqn:Hsel.
  - left. apply (open_pic_single _ _ _ _ _ Hpic). rewrite Hsel. cbn. lia.
  - left. apply (open_pic_single _ _ _ _ _ Hpic). rewrite Hsel. cbn. lia.
  - right. destruct (open_pic_pair _ _ _ _ _ _ _ _ Hpic Hsel)
      as (i1 & i2 & _ & _ & _ & _ & _ & Hscore).
    destruct (decide (photoId i1 = photoId i2)); [left|right]; lia.
Qed.

(** ** Claims about calls in several threads *)

(** C9, as stated, fails: the two calls on (0,0) and (2,0) of a new
    session, interleaved stretch by stretch, both mark their tile before
    either scans; each then sees the two marked tiles, each resolves the
    pair, and the score ends at 60.  Either sequential order of the two
    calls ends at 30. *)
Lemma C9_interleaved_calls_score_twice : ¬ serialized_as_specified.
Proof.
  intros H.
  set (σ := run_sched alternating (thread_of <$> reveals "t" two_coords, w_new)).
  assert (session w_new "t" 0 (the_game w_new)) as Hs
    by (split_and!; vm_compute; reflexivity).
  assert (ended (the_game w_new) = false) as He by (vm_compute; reflexivity).
  assert (count_status TEMP_OPEN (items (the_game w_new)) ≤ 1)%nat as Hc
    by (vm_compute; lia).
  assert (NoDup two_coords) as Hnd.
  { unfold two_coords. apply NoDup_cons. split; [|apply NoDup_singleton].
    intros Hin%list_elem_of_singleton. discriminate Hin. }
  assert (Forall is_done σ.1) as Hdone by (vm_compute; repeat constructor).
  assert (heap σ.2 !! 0%nat = Some (the_game σ.2)) as Hg1
    by (vm_compute; reflexivity).
  destruct (H w_new "t" 0%nat (the_game w_new) two_coords alternating σ.1 σ.2
              Hs He Hc Hnd (surjective_pairing σ) Hdone)
    as (order & Hperm & Heq).
  symmetry in Hperm. apply Permutation_length_2_inv in Hperm.
  destruct Hperm as [-> | ->].
  - assert (heap (run (reveals "t" [(0, 0); (2, 0)]) w_new) !! 0%nat
            = Some (the_game w_match)) as Hg2 by (vm_compute; reflexivity).
    destruct (Heq _ _ Hg1 Hg2) as [_ Hsc].
    vm_compute in Hsc. discriminate Hsc.
  - assert (heap (run (reveals "t" [(2, 0); (0, 0)]) w_new) !! 0%nat
            = Some (the_game (run (reveals "t" [(2, 0); (0, 0)]) w_new)))
      as Hg2 by (vm_compute; reflexivity).
    destruct (Heq _ _ Hg1 Hg2) as [_ Hsc].
    vm_compute in Hsc. discriminate Hsc.
Qed.

(** C9, amended.  The session object carries no lock; what orders two calls
    is the schedule alone.
    - Calls that run one after the other, each to its end before the next
      begins, leave the results and the world of the sequential history.
    - In such a history, from a world whose boards have at most one
      selected tile, a reveal sees at most two [TEMP_OPEN] tiles, changes
      the score once, by 0, +30 or -10, and leaves at most one tile
      selected; the worlds reached from the empty one are of this kind.
    - Calls that overlap can do otherwise.  Two reveals of a matching pair
      of a new session can both resolve the pair: the score is 60, where
      either order of the two calls gives 30.  The first of three reveals
      can find three [TEMP_OPEN] tiles in its scan.  The winning reveal and
      the timer can both pass the test of [end]; the one that comes second
      to [pop] raises [KeyError]. *)
Theorem C9_sequential_calls :
  (∀ ops w,
     run_sched (serial_from 0 (length ops)) (thread_of <$> ops, w)
     = (results ops w, run ops w)
     ∧ Forall is_done (results ops w))
  ∧
  (∀ w ops k row col tok game g g',
     quiet w →
     ops !! k = Some (OpOpen row col tok) →
     token2game (run (take k ops) w) !! tok = Some game →
     heap (run (take k ops) w) !! game = Some g →
     heap (run (take (S k) ops) w) !! game = Some g' →
     (length (temp_opened_of (Z.to_nat row, Z.to_nat col) g) ≤ 2)%nat ∧
     (score g' = score g ∨ score g' = score g + 30 ∨ score g' = score g - 10) ∧
     (count_status TEMP_OPEN (items g') ≤ 1)%nat)
  ∧
  (∀ ops, quiet (run ops empty_world))
  ∧
  (let σ := run_sched alternating (thread_of <$> reveals "t" two_coords, w_new) in
   σ.1 = [TDone (inr (Some 0%nat)); TDone (inr (Some 0%nat))] ∧
   score (the_game σ.2) = 60 ∧
   score (the_game (run (reveals "t" two_coords) w_new)) = 30 ∧
   score (the_game (run (reveals "t" (reverse two_coords)) w_new)) = 30)
  ∧
  (run_sched marks_first (thread_of <$> reveals "t" three_coords, w_new)).1
    !! 0%nat
  = Some (TResolve 0 [(0, 0); (0, 1); (0, 2)]%nat)
  ∧
  (run_sched racing (thread_of <$> win_and_timer, w_last)).1
  = [TDone (inr (Some 0%nat)); TDone (inl (KeyError "t"))].
Proof.
  split_and!.
  - intros ops w. split; [|apply results_done].
    apply (serial_run ops [] w).
  - intros w ops k row col tok game g g' Hq Hk Htok Hg Hg'.
    rewrite (take_S_r _ _ _ Hk), run_snoc in Hg'.
    pose proof (quiet_run (take k ops) w Hq) as Hq'.
    split_and!.
    + pose proof (length_temp_opened_of (Z.to_nat row, Z.to_nat col) g).
      pose proof (Hq' _ _ Hg). lia.
    + by eapply reveal_score.
    + exact (quiet_step _ _ Hq' _ _ Hg').
  - intros ops. apply quiet_run, quiet_empty.
  - vm_compute. auto.
  - vm_compute. reflexivity.
  - vm_compute. reflexivity.
Qed.

Lemma C9_sequential_calls_witness :
  (length (temp_opened_of (2%nat, 0%nat) (the_game w_first)) ≤ 2)%nat ∧
  (score (the_game w_match) = score (the_game w_first)
   ∨ score (the_game w_match) = score (the_game w_first) + 30
   ∨ score (the_game w_match) = score (the_game w_first) - 10) ∧
  (count_status TEMP_OPEN (items (the_game w_match)) ≤ 1)%nat.
Proof.
  assert (quiet w_new) as Hq.
  { intros [|game] g Hg; [|discriminate Hg].
    assert (g = the_game w_new) as ->
      by (symmetry; exact (f_equal (default g) Hg)).
    vm_compute. lia. }
  assert (reveals "t" two_coords !! 1%nat = Some (OpOpen 2 0 "t")) as Hk
    by reflexivity.
  assert (token2game (run (take 1 (reveals "t" two_coords)) w_new) !! "t"
          = Some 0%nat) as Htok by (vm_compute; reflexivity).
  assert (heap (run (take 1 (reveals "t" two_coords)) w_new) !! 0%nat
          = Some (the_game w_first)) as Hg by (vm_compute; reflexivity).
  assert (heap (run (take 2 (reveals "t" two_coords)) w_new) !! 0%nat
          = Some (the_game w_match)) as Hg' by (vm_compute; reflexivity).
  exact (proj1 (proj2 C9_sequential_calls) w_new (reveals "t" two_coords)
           1%nat 2 0 "t" 0%nat (the_game w_first) (the_game w_match)
           Hq Hk Htok Hg Hg').
Defined.


(** ** Further properties: creation, lookup and the end of a session *)

(** X1: [create_game] always returns a new session object, registered under
    its token, so that [get_game_by_token] finds it at once; the object has
    score 0, is not ended, carries the clock reading and an armed timer of
    65 seconds; the objects and the registrations that existed before,
    other than one under the same token, are as they were. *)
Theorem X1_create_then_get tok now rnd w :
  ∃ w' g,
    create_game tok now rnd w = (inr (length (heap w)), w') ∧
    get_game_by_token tok w' = (inr (length (heap w)), w') ∧
    heap w' !! length (heap w) = Some g ∧
    token g = tok ∧ score g = 0 ∧ ended g = false ∧ ended_event g = false ∧
    started_at g = now ∧ end_timer g = Some 65 ∧
    (∀ other g0, heap w !! other = Some g0 → heap w' !! other = Some g0) ∧
    (∀ tok', tok' ≠ tok → token2game w' !! tok' = token2game w !! tok').
Proof.
  rewrite create_game_heap. eexists.
  exists (set_end_timer (Some 65) (new_GameWithExtras tok now rnd)).
  split; [reflexivity|]. unfold get_game_by_token. cbn [token2game heap].
  rewrite lookup_insert_eq. split; [reflexivity|]. split_and!; try reflexivity.
  - rewrite lookup_app_r by reflexivity. by rewrite Nat.sub_diag.
  - intros other g0 Hg0. by apply lookup_app_l_Some.
  - intros tok' Hne. by rewrite lookup_insert_ne.
Qed.

Lemma X1_create_then_get_witness :
  get_game_by_token "t" w_new = (inr 0%nat, w_new).
Proof.
  destruct (X1_create_then_get "t" 0 demo_rnd empty_world)
    as (w' & g & Hcreate & Hget & _).
  assert (w' = w_new) as -> by exact (eq_sym (f_equal snd Hcreate)).
  exact Hget.
Defined.

(** X2: a token that no [create_game] call of the history has drawn is
    never found: [get_game_by_token] and [open_game_pic] raise the 404
    error and leave the world as it is. *)
Theorem X2_unknown_token_not_found ops tok row col :
  tok ∉ created_tokens ops →
  get_game_by_token tok (run ops empty_world)
  = (inl NotFound, run ops empty_world) ∧
  open_game_pic row col tok (run ops empty_world)
  = (inl NotFound, run ops empty_world).
Proof.
  intros Hfresh.
  assert (token2game (run ops empty_world) !! tok = None) as Hnone.
  { apply run_registry; [done|]. apply lookup_empty. }
  unfold open_game_pic, get_game_by_token. by rewrite Hnone.
Qed.

Lemma X2_unknown_token_not_found_witness :
  get_game_by_token "u" w_mismatch = (inl NotFound, w_mismatch).
Proof.
  apply (X2_unknown_token_not_found
           [OpCreate "t" 0 demo_rnd; OpOpen 0 0 "t"; OpOpen 0 1 "t"] "u" 0 0).
  cbn. intros Hin%list_elem_of_singleton. discriminate Hin.
Defined.

(** X3: [end] is idempotent.  On a session object that has ended it
    returns without touching anything, and a second [end] after a first
    one, whether the first returned or raised [KeyError], changes nothing
    and returns normally. *)
Theorem X3_end_idempotent self w g :
  heap w !! self = Some g →
  (ended g = true → end_ self w = (inr (), w)) ∧
  end_ self (end_ self w).2 = (inr (), (end_ self w).2).
Proof.
  intros Hg. pose proof (lookup_lt_Some _ _ _ Hg) as Hlt.
  assert (∀ w0 g0, heap w0 !! self = Some g0 → ended g0 = true →
            end_ self w0 = (inr (), w0)) as Hended.
  { intros w0 g0 Hg0 He0. unfold end_. by rewrite Hg0, He0. }
  split; [by apply Hended|].
  destruct (ended g) eqn:He.
  - rewrite (Hended w g Hg He). cbn. by apply (Hended w g).
  - unfold end_ at 2 3. rewrite Hg, He. cbn.
    destruct (token2game w !! token g); cbn;
      (eapply Hended; [cbn; by apply list_lookup_insert_eq|done]).
Qed.

Lemma X3_end_idempotent_witness :
  end_ 0%nat (end_ 0%nat w_first).2 = (inr (), (end_ 0%nat w_first).2).
Proof.
  apply (X3_end_idempotent 0%nat w_first (the_game w_first)).
  vm_compute. reflexivity.
Defined.

(** X4: what [end] touches.  It writes to no object but its own, keeps the
    board, the score, the token, the clock reading and the timer of its
    object, leaves the object ended, and changes no registration but the
    one under the token of its object, which is gone afterwards when the
    object had not ended before. *)
Theorem X4_end_frame self w g :
  heap w !! self = Some g →
  (∀ other, other ≠ self →
     heap (end_ self w).2 !! other = heap w !! other) ∧
  (∃ g', heap (end_ self w).2 !! self = Some g' ∧
         items g' = items g ∧ score g' = score g ∧ token g' = token g ∧
         started_at g' = started_at g ∧ end_timer g' = end_timer g ∧
         ended g' = true ∧ (ended g = false → ended_event g' = true)) ∧
  (∀ tok', tok' ≠ token g →
     token2game (end_ self w).2 !! tok' = token2game w !! tok') ∧
  (ended g = false → token2game (end_ self w).2 !! token g = None).
Proof.
  intros Hg. pose proof (lookup_lt_Some _ _ _ Hg) as Hlt.
  unfold end_. rewrite Hg. destruct (ended g) eqn:He.
  - cbn. split_and!; [done| |done|done]. exists g. by split_and!.
  - cbn. destruct (token2game w !! token g) eqn:Htok; cbn.
    + split_and!.
      * intros other Hne. by rewrite list_lookup_insert_ne.
      * eexists. rewrite list_lookup_insert_eq by done. by split_and!.
      * intros tok' Hne. by rewrite lookup_delete_ne.
      * intros _. apply lookup_delete_eq.
    + split_and!.
      * intros other Hne. by rewrite list_lookup_insert_ne.
      * eexists. rewrite list_lookup_insert_eq by done. by split_and!.
      * done.
      * done.
Qed.

Lemma X4_end_frame_witness :
  token2game (end_ 0%nat w_first).2 !! "t" = None.
Proof.
  destruct (X4_end_frame 0%nat w_first (the_game w_first)) as (_ & _ & _ & H).
  - vm_compute. reflexivity.
  - apply H. reflexivity.
Defined.





(** ** Further properties: tokens *)

Lemma heap_ext_tokens (h h' : list GameWithExtras) :
  heap_ext h h' → length h' = length h → token <$> h' = token <$> h.
Proof.
  intros Hext Hlen. apply list_eq. intros i. rewrite !list_lookup_fmap.
  destruct (h !! i) as [g|] eqn:Hg.
  - destruct (Hext _ _ Hg) as (g' & -> & Ht & _). cbn. by rewrite Ht.
  - apply lookup_ge_None in Hg. rewrite <- Hlen in Hg.
    apply lookup_ge_None in Hg. by rewrite Hg.
Qed.

(** The tokens of the session objects are the tokens drawn, in order. *)
Lemma run_heap_tokens ops :
  token <$> heap (run ops empty_world) = created_tokens ops.
Proof.
  induction ops as [|o ops IH] using rev_ind; [done|].
  rewrite run_snoc. unfold created_tokens. rewrite omap_app.
  fold (created_tokens ops). rewrite <- IH.
  set (w := run ops empty_world).
  destruct o as [tok now rnd|tok|row col tok|self]; cbn [omap list_omap].
  - cbn. rewrite create_game_heap. cbn. by rewrite fmap_app.
  - rewrite app_nil_r. cbn. unfold get_game_by_token.
    by destruct (token2game w !! tok).
  - rewrite app_nil_r. apply heap_ext_tokens;
      [apply (step_heap_ext (OpOpen row col tok))|].
    apply open_game_pic_heap_length.
  - rewrite app_nil_r. apply heap_ext_tokens;
      [apply (step_heap_ext (OpTimer self))|].
    apply end_heap_length.
Qed.

Lemma live_update_obj game g g' w :
  live_registered w → heap w !! game = Some g →
  token g' = token g → ended g' = ended g →
  live_registered (update_obj game g' w).
Proof.
  intros Hlive Hg Ht He self gs Hgs Hes. cbn in *.
  apply list_lookup_insert_Some in Hgs as [(-> & <- & _)|[_ Hgs]].
  - rewrite Ht. apply Hlive; [done|congruence].
  - by apply Hlive.
Qed.

Lemma live_end self w : live_registered w → live_registered (end_ self w).2.
Proof.
  intros Hlive. unfold end_.
  destruct (heap w !! self) as [g|] eqn:Hg; [|done].
  destruct (ended g) eqn:He; [done|]. cbn.
  assert (∀ s gs,
    <[self := set_ended_event true (set_ended true g)]> (heap w) !! s = Some gs →
    ended gs = false →
    s ≠ self ∧ token2game w !! token gs = Some s ∧ token gs ≠ token g) as Hrest.
  { intros s gs [(-> & <- & _)|[Hne Hgs]]%list_lookup_insert_Some Hes;
      [discriminate Hes|].
    pose proof (Hlive _ _ Hgs Hes) as Hreg.
    split_and!; [done|done|]. intros Heq. rewrite Heq in Hreg.
    rewrite (Hlive _ _ Hg He) in Hreg. congruence. }
  destruct (token2game w !! token g); cbn; intros s gs Hgs Hes; cbn in *;
    destruct (Hrest _ _ Hgs Hes) as (_ & Hreg & Hne); [|done].
  by rewrite lookup_delete_ne.
Qed.

Lemma live_step o w :
  live_registered w →
  (∀ tok, tok ∈ created_tokens [o] → tok ∉ token <$> heap w) →
  live_registered (step o w).
Proof.
  intros Hlive Hfresh.
  destruct o as [tok now rnd|tok|row col tok|self]; cbn.
  - rewrite create_game_heap. intros self g Hg He. cbn in *.
    apply lookup_app_Some in Hg as [Hg|[Hlen Hg]].
    + rewrite lookup_insert_ne; [by apply Hlive|].
      intros Heq. apply (Hfresh tok); [by apply list_elem_of_singleton|].
      apply list_elem_of_fmap. exists g. split; [done|].
      by eapply list_elem_of_lookup_2.
    + apply list_lookup_singleton_Some in Hg as [Hi <-]. cbn.
      rewrite lookup_insert_eq. f_equal. lia.
  - unfold get_game_by_token. by destruct (token2game w !! tok).
  - unfold open_game_pic, get_game_by_token.
    destruct (token2game w !! tok) as [game|]; [|done]. cbn.
    destruct (negb _); [done|]. destruct (heap w !! game) as [g|] eqn:Hg; [|done].
    destruct (open_pic _ _ g) as [e|[g' b]] eqn:Hpic; [done|].
    apply open_pic_obj_rel in Hpic as [(Ht & _) He].
    pose proof (live_update_obj _ _ _ _ Hlive Hg Ht He) as Hup.
    destruct b; [|done].
    pose proof (live_end game _ Hup) as Hend.
    by destruct (end_ game (update_obj game g' w)) as [[e|?] w'].
  - by apply live_end.
Qed.

Lemma run_live ops :
  NoDup (created_tokens ops) → live_registered (run ops empty_world).
Proof.
  induction ops as [|o ops IH] using rev_ind.
  { intros _ self g. cbn. by rewrite lookup_nil. }
  unfold created_tokens. rewrite omap_app.
  intros (Hnd & Hdisj & _)%NoDup_app. rewrite run_snoc.
  apply live_step; [by apply IH|].
  intros tok Hin Hold. rewrite run_heap_tokens in Hold.
  by apply (Hdisj tok).
Qed.

(** X6: when the tokens drawn are pairwise distinct and the requests and
    timer events so far have run one after the other, every session object
    that has not ended is found by [get_game_by_token] under its own token,
    and [end], run next by the timer of any session object with no other
    thread in between, does not raise.  Calls that overlap are not
    covered. *)
Theorem X6_distinct_tokens_keep_sessions_reachable ops self g :
  NoDup (created_tokens ops) →
  heap (run ops empty_world) !! self = Some g →
  (ended g = false →
   get_game_by_token (token g) (run ops empty_world)
   = (inr self, run ops empty_world)) ∧
  (timer_fires self (run ops empty_world)).1 = inr ().
Proof.
  intros Hnd Hg. pose proof (run_live ops Hnd _ _ Hg) as Hreg. split.
  - intros He. unfold get_game_by_token. by rewrite (Hreg He).
  - unfold timer_fires, end_. rewrite Hg.
    destruct (ended g); [done|]. cbn. by rewrite (Hreg eq_refl).
Qed.

Lemma X6_distinct_tokens_keep_sessions_reachable_witness :
  get_game_by_token "t" w_mismatch = (inr 0%nat, w_mismatch) ∧
  (timer_fires 0%nat w_mismatch).1 = inr ().
Proof.
  destruct (X6_distinct_tokens_keep_sessions_reachable
              [OpCreate "t" 0 demo_rnd; OpOpen 0 0 "t"; OpOpen 0 1 "t"]
              0%nat (the_game w_mismatch)) as [Hget Htimer].
  - cbn. apply NoDup_singleton.
  - vm_compute. reflexivity.
  - split; [exact (Hget eq_refl)|exact Htimer].
Defined.

(** X7: [end] removes by token, not by object.  When a second session is
    created under a token that is already registered, only the second is
    found afterwards; the firing of the first session's timer then takes
    the second session out of the registry although it has not ended, and
    the second session's own timer raises [KeyError]. *)
Theorem X7_reused_token tok now1 rnd1 now2 rnd2 w :
  let first := length (heap w) in
  let second := S (length (heap w)) in
  let w2 := (create_game tok now2 rnd2 (create_game tok now1 rnd1 w).2).2 in
  let w3 := (timer_fires first w2).2 in
  get_game_by_token tok w2 = (inr second, w2) ∧
  (timer_fires first w2).1 = inr () ∧
  get_game_by_token tok w3 = (inl NotFound, w3) ∧
  (∃ g2, heap w3 !! second = Some g2 ∧ ended g2 = false) ∧
  (timer_fires second w3).1 = inl (KeyError tok).
Proof.
  intros first second w2 w3. subst w2 w3 first second.
  rewrite !create_game_heap. cbn [snd heap token2game].
  rewrite length_app. cbn [length]. rewrite Nat.add_1_r.
  set (g1 := set_end_timer (Some 65) (new_GameWithExtras tok now1 rnd1)).
  set (g2 := set_end_timer (Some 65) (new_GameWithExtras tok now2 rnd2)).
  assert (((heap w ++ [g1]) ++ [g2]) !! length (heap w) = Some g1) as H1.
  { rewrite lookup_app_l by (rewrite length_app; cbn; lia).
    rewrite lookup_app_r by done. by rewrite Nat.sub_diag. }
  assert (∀ h : list GameWithExtras,
            length h = length ((heap w ++ [g1]) ++ [g2]) →
            (∀ i, i ≠ length (heap w) →
                  h !! i = ((heap w ++ [g1]) ++ [g2]) !! i) →
            h !! S (length (heap w)) = Some g2) as H2.
  { intros h Hlen Hh. rewrite Hh by lia.
    rewrite lookup_app_r by (rewrite length_app; cbn; lia).
    rewrite length_app. cbn. by replace (_ - _)%nat with 0%nat by lia. }
  unfold get_game_by_token, timer_fires, end_. cbn [heap token2game fst snd].
  rewrite !lookup_insert_eq, H1.
  change (ended g1) with false. cbn [heap token2game fst snd update_obj].
  change (token (set_ended_event true (set_ended true g1))) with tok.
  rewrite !lookup_insert_eq. cbn [heap token2game fst snd].
  rewrite !lookup_delete_eq.
  erewrite H2; [|by rewrite length_insert|
                 by intros i Hne; rewrite list_lookup_insert_ne].
  change (ended g2) with false. cbn [heap token2game fst snd update_obj].
  change (token (set_ended_event true (set_ended true g2))) with tok.
  rewrite lookup_delete_eq. split_and!; try reflexivity.
  by exists g2.
Qed.

(** ** Further properties: what a reveal can do *)

Lemma query_ok_to_nat x : query_ok x = true → (Z.to_nat x < 4)%nat.
Proof. unfold query_ok. intros H. apply andb_true_iff in H. lia. Qed.

Lemma is_4x4_get_item its r c :
  is_4x4 its → (r < 4)%nat → (c < 4)%nat → is_Some (get_item its (r, c)).
Proof.
  unfold is_4x4, get_item. intros H4 Hr Hc. cbn.
  assert (length its = 4%nat) as Hlen
    by (by rewrite <- (length_fmap length), H4).
  destruct (lookup_lt_is_Some_2 its r) as [row Hrow]; [lia|].
  rewrite Hrow. cbn. apply lookup_lt_is_Some_2.
  assert ((length <$> its) !! r = Some (length row)) as Hl
    by (by rewrite list_lookup_fmap, Hrow).
  rewrite H4 in Hl.
  do 4 (destruct r as [|r]; [cbn in Hl; injection Hl as <-; lia|]). lia.
Qed.

(** X8: after requests and timer events that have run one after the other,
    a reveal that runs with no other thread in between has one of four
    outcomes, decided in this order: the 404 error when the token is not
    registered; the rejection of the arguments when a coordinate is outside
    0..3; the 409 error when the addressed tile is [OPEN] or [TEMP_OPEN];
    otherwise the session is returned.  The three errors leave the world as
    it is, and such a reveal raises neither [IndexError] nor [KeyError].
    Calls that overlap are not covered. *)
Theorem X8_reveal_outcomes ops row col tok :
  match token2game (run ops empty_world) !! tok with
  | None =>
      open_game_pic row col tok (run ops empty_world)
      = (inl NotFound, run ops empty_world)
  | Some game =>
      if query_ok row && query_ok col then
        ∃ g it,
          heap (run ops empty_world) !! game = Some g ∧
          get_item (items g) (Z.to_nat row, Z.to_nat col) = Some it ∧
          if decide (status it = OPEN ∨ status it = TEMP_OPEN) then
            open_game_pic row col tok (run ops empty_world)
            = (inl Conflict, run ops empty_world)
          else
            ∃ w', open_game_pic row col tok (run ops empty_world)
                  = (inr game, w')
      else
        open_game_pic row col tok (run ops empty_world)
        = (inl RequestValidationError, run ops empty_world)
  end.
Proof.
  destruct (token2game (run ops empty_world) !! tok) as [game|] eqn:Htok.
  - destruct (query_ok row && query_ok col) eqn:Hq.
    + apply andb_true_iff in Hq as [Hr Hc].
      destruct (reachable_session ops tok game Htok) as (g & Hs & He & H4 & _).
      destruct (is_4x4_get_item (items g) (Z.to_nat row) (Z.to_nat col) H4)
        as [it Hit]; [by apply query_ok_to_nat..|].
      exists g, it. split; [apply Hs|]. split; [done|].
      destruct (decide (status it = OPEN ∨ status it = TEMP_OPEN)) as [Hv|Hv].
      * by apply (open_game_pic_conflict _ tok game g row col it).
      * destruct (open_game_pic_result_any _ _ _ _ row col it Hs Hr Hc Hit)
          as (g1 & b & w' & g' & _ & Hres & _); [tauto..|].
        by exists w'.
    + unfold open_game_pic, get_game_by_token. by rewrite Htok, Hq.
  - unfold open_game_pic, get_game_by_token. by rewrite Htok.
Qed.

Lemma resolved_pair_selected p g r :
  r ∈ resolved_pair p g → r ∈ temp_opened_of p g.
Proof.
  unfold resolved_pair.
  destruct (temp_opened_of p g) as [|p1 [|p2 rest]];
    [by intros ?%elem_of_nil..|].
  rewrite !elem_of_cons. intros [?|[?|[]%elem_of_nil]]; auto.
Qed.

(** A tile that is [OPEN] is not written by the body. *)
Lemma open_pic_keeps_open row col g g' b r it :
  open_pic row col g = inr (g', b) →
  get_item (items g) r = Some it → status it = OPEN →
  get_item (items g') r = Some it.
Proof.
  intros Hpic Hr Hst.
  destruct (open_pic_inr_inv _ _ _ _ _ Hpic) as (ita & Hita & Ho & _).
  assert ((row, col) ≠ r) as Hne by (intros Heq; subst r; congruence).
  rewrite (open_pic_other _ _ _ _ _ _ Hpic).
  - rewrite get_item_marked, decide_False, Hr by done. cbn.
    unfold close_item. rewrite decide_False; [done|congruence].
  - intros (it0 & Hit0 & Hst0)%resolved_pair_selected%elem_of_temp_opened_of.
    rewrite get_item_marked, decide_False, Hr in Hit0 by done.
    simplify_eq. congruence.
Qed.

Lemma step_keeps_open o w game g r it :
  heap w !! game = Some g →
  get_item (items g) r = Some it → status it = OPEN →
  ∃ g', heap (step o w) !! game = Some g' ∧ get_item (items g') r = Some it.
Proof.
  intros Hg Hr Hst.
  destruct o as [tok now rnd|tok|row col tok|self].
  1,2,4: (edestruct (step_other_keeps_board) as (g' & Hg' & Hits & _);
          [|exact Hg|exists g'; split; [exact Hg'|by rewrite Hits]];
          intros ? ? ?; discriminate).
  cbn.
  destruct (open_game_pic_cases row col tok w)
    as [->|(game0 & g0 & g1 & b & g2 & _ & Hg0 & _ & _ & Hpic & -> & Hits & _)];
    [by exists g|].
  destruct (decide (game0 = game)) as [->|Hne].
  - exists g2. rewrite list_lookup_insert_eq by (by eapply lookup_lt_Some).
    split; [done|]. rewrite Hits. simplify_eq.
    by eapply open_pic_keeps_open.
  - exists g. by rewrite list_lookup_insert_ne.
Qed.

(** X9: a tile that is [OPEN] stays [OPEN], with its id, through later
    requests and timer events, as long as these run one after the other,
    each to its end before the next begins, and no call is in flight when
    they start.  Calls that overlap are not covered. *)
Theorem X9_open_is_permanent ops w game g r it :
  heap w !! game = Some g →
  get_item (items g) r = Some it → status it = OPEN →
  ∃ g', heap (run ops w) !! game = Some g' ∧
        get_item (items g') r = Some it.
Proof.
  intros Hg Hr Hst. induction ops as [|o ops IH] using rev_ind.
  - by exists g.
  - destruct IH as (g1 & Hg1 & Hr1). rewrite run_snoc.
    by apply (step_keeps_open o _ game g1).
Qed.

Lemma X9_open_is_permanent_witness :
  ∃ g', heap (run [OpOpen 0 1 "t"; OpTimer 0%nat] w_match) !! 0%nat = Some g' ∧
        get_item (items g') (2%nat, 0%nat)
        = Some {| photoId := 0; status := OPEN |}.
Proof.
  apply (X9_open_is_permanent [OpOpen 0 1 "t"; OpTimer 0%nat] w_match 0%nat
           (the_game w_match)).
  - vm_compute. reflexivity.
  - vm_compute. reflexivity.
  - reflexivity.
Defined.

(** A tile that is [OPEN] after the body was [OPEN] before, or is one of
    the two resolved tiles, whose ids agree. *)
Lemma open_pic_new_open row col g g' b r it' :
  open_pic row col g = inr (g', b) →
  get_item (items g') r = Some it' → status it' = OPEN →
  (∃ it, get_item (items g) r = Some it ∧ status it = OPEN) ∨
  (∃ p1 p2 rest i1 i2,
     temp_opened_of (row, col) g = p1 :: p2 :: rest ∧ (r = p1 ∨ r = p2) ∧
     p1 ≠ p2 ∧
     get_item (items g) p1 = Some i1 ∧ get_item (items g) p2 = Some i2 ∧
     photoId i1 = photoId i2 ∧
     get_item (items g') p1 = Some (with_status OPEN i1) ∧
     get_item (items g') p2 = Some (with_status OPEN i2) ∧
     score g' = score g + 30).
Proof.
  intros Hpic Hr Hst.
  destruct (decide (r ∈ resolved_pair (row, col) g)) as [Hin|Hout].
  - right. unfold resolved_pair in Hin.
    destruct (temp_opened_of (row, col) g) as [|p1 [|p2 rest]] eqn:Hsel;
      [by apply elem_of_nil in Hin..|].
    destruct (open_pic_pair _ _ _ _ _ _ _ _ Hpic Hsel)
      as (i1 & i2 & H1 & H2 & Hne & Hp1 & Hp2 & Hsc). cbn zeta in Hp1, Hp2.
    exists p1, p2, rest, i1, i2.
    rewrite !elem_of_cons in Hin.
    destruct (decide (photoId i1 = photoId i2)) as [Heq|Hneq].
    + split_and!; try done.
      destruct Hin as [?|[?|[]%elem_of_nil]]; auto.
    + exfalso. destruct Hin as [->|[->|[]%elem_of_nil]]; simplify_eq;
        discriminate Hst.
  - left. rewrite (open_pic_other _ _ _ _ _ _ Hpic Hout) in Hr.
    rewrite get_item_marked in Hr.
    destruct (decide ((row, col) = r)) as [Heq|Hne].
    + exfalso. rewrite decide_True in Hr by done.
      destruct (get_item (items g) (row, col)) as [ita|]; [|done].
      cbn in Hr. injection Hr as <-. discriminate Hst.
    + rewrite decide_False in Hr by done.
      destruct (get_item (items g) r) as [it|]; [|done]. exists it.
      split; [done|]. cbn in Hr. injection Hr as <-. unfold close_item in Hst.
      by destruct (decide (status it = CLOSING)).
Qed.

(** X10: a reveal never opens a tile on its own.  When a session object
    has, after a call of the handler, an [OPEN] tile that was not [OPEN]
    before, the call was made with the token of this session, the tile is
    one of the two first entries of its selection, the two carry the same
    id, both are [OPEN] afterwards and the score is 30 higher. *)
Theorem X10_tiles_open_in_matching_pairs row col tok w game g g' r it' :
  heap w !! game = Some g →
  heap (open_game_pic row col tok w).2 !! game = Some g' →
  get_item (items g') r = Some it' → status it' = OPEN →
  status_at (items g) r ≠ Some OPEN →
  ∃ p1 p2 rest i1 i2,
    token2game w !! tok = Some game ∧
    temp_opened_of (Z.to_nat row, Z.to_nat col) g = p1 :: p2 :: rest ∧
    (r = p1 ∨ r = p2) ∧ p1 ≠ p2 ∧
    get_item (items g) p1 = Some i1 ∧ get_item (items g) p2 = Some i2 ∧
    photoId i1 = photoId i2 ∧
    status_at (items g') p1 = Some OPEN ∧
    status_at (items g') p2 = Some OPEN ∧
    score g' = score g + 30.
Proof.
  intros Hg Hg' Hr Hst Hnot.
  assert (¬ ∃ it, get_item (items g) r = Some it ∧ status it = OPEN) as Hno.
  { intros (it & Hit & Ho). apply Hnot. unfold status_at. by rewrite Hit, <- Ho. }
  destruct (open_game_pic_cases row col tok w)
    as [Hw|(game0 & g0 & g1 & b & g2 & Htok & Hg0 & _ & _ & Hpic & Hheap & Hits & Hsc)].
  { rewrite Hw in Hg'. simplify_eq. destruct Hno. eauto. }
  rewrite Hheap in Hg'.
  destruct (decide (game0 = game)) as [->|Hne];
    [|rewrite list_lookup_insert_ne in Hg' by done; simplify_eq;
      destruct Hno; eauto].
  rewrite list_lookup_insert_eq in Hg' by (by eapply lookup_lt_Some).
  simplify_eq. rewrite Hits in Hr.
  destruct (open_pic_new_open _ _ _ _ _ _ _ Hpic Hr Hst)
    as [?|(p1 & p2 & rest & i1 & i2 & Hsel & Hin & Hne & H1 & H2 & Heq & Hp1 & Hp2 & Hscore)];
    [done|].
  exists p1, p2, rest, i1, i2. unfold status_at. rewrite Hits, Hp1, Hp2, Hsc.
  by split_and!.
Qed.

Lemma X10_tiles_open_in_matching_pairs_witness :
  ∃ p1 p2 rest,
    temp_opened_of (2%nat, 0%nat) (the_game w_first) = p1 :: p2 :: rest ∧
    ((2%nat, 0%nat) = p1 ∨ (2%nat, 0%nat) = p2) ∧
    score (the_game w_match) = score (the_game w_first) + 30.
Proof.
  destruct (X10_tiles_open_in_matching_pairs 2 0 "t" w_first 0%nat
              (the_game w_first) (the_game w_match) (2%nat, 0%nat)
              {| photoId := 0; status := OPEN |})
    as (p1 & p2 & rest & i1 & i2 & _ & Hsel & Hin & _ & _ & _ & _ & _ & _ & Hsc).
  - vm_compute. reflexivity.
  - vm_compute. reflexivity.
  - vm_compute. reflexivity.
  - reflexivity.
  - vm_compute. discriminate.
  - exists p1, p2, rest. by split_and!.
Defined.

Lemma open_pic_matched_pairs row col g g' b :
  (∀ p it, get_item (items g) p = Some it → status it = OPEN →
     ∃ q itq, q ≠ p ∧ get_item (items g) q = Some itq ∧
              status itq = OPEN ∧ photoId itq = photoId it) →
  open_pic row col g = inr (g', b) →
  ∀ p it, get_item (items g') p = Some it → status it = OPEN →
    ∃ q itq, q ≠ p ∧ get_item (items g') q = Some itq ∧
             status itq = OPEN ∧ photoId itq = photoId it.
Proof.
  intros Hinv Hpic p it Hp Hst.
  destruct (open_pic_new_open _ _ _ _ _ _ _ Hpic Hp Hst)
    as [(it0 & Hit0 & Ho)|(p1 & p2 & rest & i1 & i2 & _ & Hin & Hne & _ & _ & Heq & Hp1 & Hp2 & _)].
  - pose proof (open_pic_keeps_open _ _ _ _ _ _ _ Hpic Hit0 Ho) as Hkeep.
    assert (it = it0) as -> by congruence.
    destruct (Hinv _ _ Hit0 Ho) as (q & itq & Hq & Hitq & Hoq & Hid).
    exists q, itq. split_and!; try done.
    by eapply open_pic_keeps_open.
  - destruct Hin as [-> | ->].
    + exists p2, (with_status OPEN i2). rewrite Hp1 in Hp. simplify_eq.
      split_and!; [congruence|done|done|]. cbn. congruence.
    + exists p1, (with_status OPEN i1). rewrite Hp2 in Hp. simplify_eq.
      split_and!; [congruence|done|done|]. cbn. congruence.
Qed.

(** X11: as long as requests and timer events run one after the other, each
    to its end before the next begins, the [OPEN] tiles of a session come
    in matched pairs: each has a partner at another place that is [OPEN]
    and carries the same id.  Calls that overlap are not covered. *)
Theorem X11_open_tiles_are_paired ops game g p it :
  heap (run ops empty_world) !! game = Some g →
  get_item (items g) p = Some it → status it = OPEN →
  ∃ q itq, q ≠ p ∧ get_item (items g) q = Some itq ∧
           status itq = OPEN ∧ photoId itq = photoId it.
Proof.
  revert game g p it.
  induction ops as [|o ops IH] using rev_ind; intros game g p it.
  { cbn. by rewrite lookup_nil. }
  rewrite run_snoc. set (w := run ops empty_world) in *.
  destruct o as [tok now rnd|tok|row col tok|self]; cbn.
  - rewrite create_game_heap. cbn.
    intros [Hg|[_ Hg]]%lookup_app_Some; [by eapply IH|].
    apply list_lookup_singleton_Some in Hg as [_ <-].
    change (items (set_end_timer (Some 65) (new_GameWithExtras tok now rnd)))
      with (createItems rnd []).
    intros Hp%get_item_concat Hst. exfalso.
    rewrite createItems_concat in Hp.
    apply list_elem_of_fmap in Hp as (v & -> & _). discriminate Hst.
  - unfold get_game_by_token. destruct (token2game w !! tok); apply IH.
  - destruct (open_game_pic_cases row col tok w)
      as [->|(game0 & g0 & g1 & b & g2 & _ & Hg0 & _ & _ & Hpic & -> & Hits & _)];
      [apply IH|].
    intros [(-> & <- & _)|[_ Hg]]%list_lookup_insert_Some; [|by eapply IH].
    rewrite Hits. eapply open_pic_matched_pairs; [|done].
    intros p0 it0. by apply (IH _ _ _ _ Hg0).
  - unfold timer_fires, end_.
    destruct (heap w !! self) as [g0|] eqn:Hg0; [|apply IH].
    destruct (ended g0); [apply IH|].
    assert (<[self := set_ended_event true (set_ended true g0)]> (heap w)
              !! game = Some g →
            get_item (items g) p = Some it → status it = OPEN →
            ∃ q itq, q ≠ p ∧ get_item (items g) q = Some itq ∧
                     status itq = OPEN ∧ photoId itq = photoId it) as Hins.
    { intros [(-> & <- & _)|[_ Hg]]%list_lookup_insert_Some;
        [exact (IH _ _ _ _ Hg0)|by eapply IH]. }
    cbn. by destruct (token2game w !! token g0).
Qed.

Lemma X11_open_tiles_are_paired_witness :
  ∃ q itq, q ≠ (0%nat, 0%nat) ∧
           get_item (items (the_game w_match)) q = Some itq ∧
           status itq = OPEN ∧ photoId itq = 0.
Proof.
  apply (X11_open_tiles_are_paired
           [OpCreate "t" 0 demo_rnd; OpOpen 0 0 "t"; OpOpen 2 0 "t"]
           0%nat (the_game w_match) (0%nat, 0%nat)
           {| photoId := 0; status := OPEN |}).
  - vm_compute. reflexivity.
  - vm_compute. reflexivity.
  - reflexivity.
Defined.

Lemma end_registry_other self w g tok' :
  heap w !! self = Some g → tok' ≠ token g →
  token2game (end_ self w).2 !! tok' = token2game w !! tok'.
Proof.
  intros Hg Hne. unfold end_. rewrite Hg. destruct (ended g); [done|]. cbn.
  destruct (token2game w !! token g); cbn; [|done].
  by rewrite lookup_delete_ne.
Qed.

(** X12: sessions do not interfere.  In every world the process reaches, a
    reveal made with one token writes to no session object but the one
    registered under it, and changes no registration but its own. *)
Theorem X12_reveal_touches_one_session ops row col tok :
  (∀ other,
     token2game (run ops empty_world) !! tok ≠ Some other →
     heap (open_game_pic row col tok (run ops empty_world)).2 !! other
     = heap (run ops empty_world) !! other) ∧
  (∀ tok', tok' ≠ tok →
     token2game (open_game_pic row col tok (run ops empty_world)).2 !! tok'
     = token2game (run ops empty_world) !! tok').
Proof.
  set (w := run ops empty_world). split.
  - intros other Hother.
    destruct (open_game_pic_cases row col tok w)
      as [->|(game0 & g0 & g1 & b & g2 & Htok & _ & _ & _ & _ & -> & _)];
      [done|].
    apply list_lookup_insert_ne. intros ->. by apply Hother.
  - intros tok' Hne. unfold open_game_pic, get_game_by_token.
    destruct (token2game w !! tok) as [game|] eqn:Htok; [|done]. cbn.
    destruct (negb _); [done|].
    destruct (reachable_session ops tok game Htok)
      as (g & (_ & Hg & Ht) & _). fold w in Hg. rewrite Hg.
    destruct (open_pic _ _ g) as [e|[g' [|]]] eqn:Hpic; [done| |done].
    destruct (open_pic_obj_rel _ _ _ _ _ Hpic) as [(Ht' & _) _].
    pose proof (end_registry_other game (update_obj game g' w) g' tok') as Hend.
    destruct (end_ game (update_obj game g' w)) as [[e|?] w'] eqn:Hres;
      cbn in *; apply Hend; try congruence;
      by eapply heap_update_obj_eq.
Qed.

Lemma X12_reveal_touches_one_session_witness :
  heap (open_game_pic 0 0 "u"
          (run [OpCreate "t" 0 demo_rnd; OpCreate "u" 1 demo_rnd] empty_world)).2
    !! 0%nat
  = heap (run [OpCreate "t" 0 demo_rnd; OpCreate "u" 1 demo_rnd] empty_world)
      !! 0%nat.
Proof.
  apply (proj1 (X12_reveal_touches_one_session
                  [OpCreate "t" 0 demo_rnd; OpCreate "u" 1 demo_rnd] 0 0 "u")).
  vm_compute. discriminate.
Defined.

(** ** Further properties: the layout of a new board *)

Lemma createItems_get_item rnd r c :
  (r < 4)%nat → (c < 4)%nat →
  get_item (createItems rnd []) (r, c)
  = new_Item <$> shuffle rnd photos0 !! (4 * r + c)%nat.
Proof.
  intros Hr Hc. pose proof (shuffle_photos0_length rnd) as H.
  unfold createItems, get_item. revert H. generalize (shuffle rnd photos0).
  intros l H. destruct_list16 l H.
  do 4 (destruct r as [|r];
        [do 4 (destruct c as [|c]; [reflexivity|]); lia|]). lia.
Qed.

Lemma new_board_tile rnd r c :
  (r < 4)%nat → (c < 4)%nat →
  ∃ v, shuffle rnd photos0 !! (4 * r + c)%nat = Some v ∧
       get_item (createItems rnd []) (r, c)
       = Some {| photoId := v; status := CLOSING |}.
Proof.
  intros Hr Hc.
  destruct (lookup_lt_is_Some_2 (shuffle rnd photos0) (4 * r + c)) as [v Hv].
  { rewrite shuffle_photos0_length. lia. }
  exists v. split; [done|]. by rewrite createItems_get_item, Hv.
Qed.

(** X13: the shuffled ids are laid out row by row: the tile at row [r] and
    column [c] of a new board carries the id at index [4 r + c] of the
    shuffled list, in the default status. *)
Theorem X13_new_board_is_row_major rnd r c :
  (r < 4)%nat → (c < 4)%nat →
  ∃ v, shuffle rnd photos0 !! (4 * r + c)%nat = Some v ∧
       get_item (createItems rnd []) (r, c)
       = Some {| photoId := v; status := CLOSING |}.
Proof.
  intros Hr Hc.
  destruct (lookup_lt_is_Some_2 (shuffle rnd photos0) (4 * r + c)) as [v Hv].
  { rewrite shuffle_photos0_length. lia. }
  exists v. split; [done|]. by rewrite createItems_get_item, Hv.
Qed.

Lemma X13_new_board_is_row_major_witness :
  ∃ v, shuffle demo_rnd photos0 !! 6%nat = Some v ∧
       get_item (createItems demo_rnd []) (1%nat, 2%nat)
       = Some {| photoId := v; status := CLOSING |}.
Proof. apply (X13_new_board_is_row_major demo_rnd 1 2); lia. Defined.

(** X15: the first reveal on a new session.  Whatever the shuffle, a
    reveal at in-range coordinates right after [create_game] returns the
    session, still registered and not ended, with score 0; the addressed
    tile is [TEMP_OPEN] and every other tile, [CLOSING] until then, is
    [CLOSED]; the ids are those of the shuffled list. *)
Theorem X15_first_reveal_on_new_session tok now rnd w row col :
  query_ok row = true → query_ok col = true →
  ∃ w2 g2,
    open_game_pic row col tok (create_game tok now rnd w).2
    = (inr (length (heap w)), w2) ∧
    heap w2 !! length (heap w) = Some g2 ∧
    token2game w2 !! tok = Some (length (heap w)) ∧
    score g2 = 0 ∧ ended g2 = false ∧
    ∀ r c, (r < 4)%nat → (c < 4)%nat →
      get_item (items g2) (r, c)
      = (λ v, {| photoId := v;
                 status := if decide ((r, c) = (Z.to_nat row, Z.to_nat col))
                           then TEMP_OPEN else CLOSED |})
        <$> shuffle rnd photos0 !! (4 * r + c)%nat.
Proof.
  intros Hr Hc. rewrite create_game_heap. cbn [snd].
  set (g := set_end_timer (Some 65) (new_GameWithExtras tok now rnd)).
  set (w1 := {| heap := heap w ++ [g];
                token2game := <[tok := length (heap w)]> (token2game w) |}).
  assert (session w1 tok (length (heap w)) g) as Hs.
  { split_and!; [apply lookup_insert_eq| |done]. cbn.
    rewrite lookup_app_r by done. by rewrite Nat.sub_diag. }
  assert (items g = createItems rnd []) as Hitems by reflexivity.
  pose proof (query_ok_to_nat _ Hr) as Hr4.
  pose proof (query_ok_to_nat _ Hc) as Hc4.
  destruct (new_board_tile rnd (Z.to_nat row) (Z.to_nat col) Hr4 Hc4)
    as (v & Hv & Hit). rewrite <- Hitems in Hit.
  destruct (open_game_pic_result w1 tok _ g row col _ Hs eq_refl Hr Hc Hit)
    as (g1 & b & w2 & g2 & Hpic & Hres & Hg2 & Hits & Hsc & _ & Hend & Hreg);
    [discriminate..|].
  assert (count_status TEMP_OPEN (items g) = 0%nat) as Hzero.
  { rewrite Hitems. unfold count_status. rewrite createItems_concat.
    generalize (shuffle rnd photos0). intros l.
    induction l as [|x l IHl]; [done|]. cbn [fmap list_fmap].
    by rewrite filter_cons, decide_False. }
  destruct (first_pick _ _ _ _ _ _ Hpic Hzero Hit) as (_ & Hp & Hscore & ->).
  exists w2, g2. split; [done|]. split; [done|]. split.
  { rewrite Hreg. apply lookup_insert_eq. }
  split; [by rewrite Hsc, Hscore|]. split; [done|].
  intros r c Hr' Hc'. rewrite Hits.
  destruct (new_board_tile rnd r c Hr' Hc') as (v' & Hv' & Hit').
  rewrite <- Hitems in Hit'. rewrite Hv'. cbn.
  destruct (decide ((r, c) = (Z.to_nat row, Z.to_nat col))) as [Heq|Hne].
  - rewrite Heq in *. rewrite Hp. assert (v' = v) as -> by congruence. done.
  - by destruct (closing_cleaned _ _ _ _ _ _ _ Hpic Hne Hit' eq_refl) as [_ ->].
Qed.

Lemma X15_first_reveal_on_new_session_witness :
  ∃ w2 g2,
    open_game_pic 1 2 "t" w_new = (inr 0%nat, w2) ∧
    heap w2 !! 0%nat = Some g2 ∧ score g2 = 0.
Proof.
  destruct (X15_first_reveal_on_new_session "t" 0 demo_rnd empty_world 1 2)
    as (w2 & g2 & Hres & Hg2 & _ & Hsc & _); [reflexivity..|].
  exists w2, g2. by split_and!.
Defined.

(** ** Further properties: the score *)

Section StatusRows.
Variable s : ImgStatus.

Lemma elem_of_status_row r c row p :
  p ∈ status_row s r c row ↔
  p.1 = r ∧ (c ≤ p.2)%nat ∧
  ∃ it, row !! (p.2 - c)%nat = Some it ∧ status it = s.
Proof.
  revert c. induction row as [|it row IH]; intros c; cbn.
  - split; [by intros ?%elem_of_nil|]. by intros (_ & _ & ? & ? & _).
  - rewrite elem_of_app, IH. destruct p as [pr pc]; cbn. split.
    + intros [Hhd|(-> & Hc & it' & Hit & Hst)].
      * destruct (decide (status it = s)) as [Hs|];
          [|by apply elem_of_nil in Hhd].
        apply list_elem_of_singleton in Hhd. injection Hhd as -> ->.
        split_and!; [done|lia|]. exists it. by rewrite Nat.sub_diag.
      * split_and!; [done|lia|]. exists it'. split; [|done].
        by replace (pc - c)%nat with (S (pc - S c)) by lia.
    + intros (-> & Hc & it' & Hit & Hst).
      destruct (decide (pc = c)) as [->|Hne].
      * left. rewrite Nat.sub_diag in Hit. cbn in Hit. injection Hit as ->.
        rewrite decide_True by done. by apply list_elem_of_singleton.
      * right. split_and!; [done|lia|]. exists it'. split; [|done].
        by replace (pc - c)%nat with (S (pc - S c)) in Hit by lia.
Qed.

Lemma elem_of_status_rows r its p :
  p ∈ status_rows s r its ↔
  (r ≤ p.1)%nat ∧
  ∃ it, get_item its ((p.1 - r)%nat, p.2) = Some it ∧ status it = s.
Proof.
  revert r. induction its as [|row its IH]; intros r; cbn.
  - split; [by intros ?%elem_of_nil|]. by intros (_ & ? & ? & _).
  - rewrite elem_of_app, IH, elem_of_status_row.
    destruct p as [pr pc]; unfold get_item; cbn. split.
    + intros [(-> & _ & it & Hit & Hst)|(Hr & it & Hit & Hst)].
      * split; [lia|]. exists it. rewrite Nat.sub_diag; cbn.
        by rewrite Nat.sub_0_r in Hit.
      * split; [lia|]. exists it. split; [|done].
        by replace (pr - r)%nat with (S (pr - S r)) by lia.
    + intros (Hr & it & Hit & Hst).
      destruct (decide (pr = r)) as [->|Hne].
      * left. split_and!; [done|lia|]. exists it.
        rewrite Nat.sub_diag in Hit; cbn in Hit. by rewrite Nat.sub_0_r.
      * right. split; [lia|]. exists it. split; [|done].
        by replace (pr - r)%nat with (S (pr - S r)) in Hit by lia.
Qed.

(** A place is listed exactly when its tile has the status. *)
Lemma elem_of_status_places its p :
  p ∈ status_rows s 0 its ↔ ∃ it, get_item its p = Some it ∧ status it = s.
Proof.
  rewrite elem_of_status_rows. destruct p as [pr pc]; cbn.
  rewrite Nat.sub_0_r. split; [by intros [_ ?]|]. intros ?; split; [lia|done].
Qed.

Lemma NoDup_status_row r c row : NoDup (status_row s r c row).
Proof.
  revert c. induction row as [|it row IH]; intros c; cbn; [constructor|].
  destruct (decide (status it = s)); cbn; [|done].
  constructor; [|done]. rewrite elem_of_status_row; cbn. lia.
Qed.

Lemma NoDup_status_rows r its : NoDup (status_rows s r its).
Proof.
  revert r. induction its as [|row its IH]; intros r; cbn; [constructor|].
  apply NoDup_app. split_and!; [apply NoDup_status_row| |done].
  intros p [Hp _]%elem_of_status_row [Hr _]%elem_of_status_rows. lia.
Qed.

Lemma length_status_rows r its :
  length (status_rows s r its) = count_status s its.
Proof.
  unfold count_status. revert r.
  induction its as [|row its IH]; intros r; [done|].
  cbn [status_rows concat].
  rewrite length_app, filter_app, length_app, IH. f_equal.
  generalize 0%nat. induction row as [|it row IHr]; intros c; [done|].
  cbn [status_row]. rewrite length_app, IHr, filter_cons.
  by destruct (decide (status it = s)).
Qed.
End StatusRows.

(** The number of [OPEN] tiles and the score move together: a call finds a
    pair, two more tiles are [OPEN] and the score is 30 higher; or the
    [OPEN] tiles are the same and the score is the same or 10 lower. *)
Lemma open_pic_accounting row col g g' b :
  open_pic row col g = inr (g', b) →
  (count_status OPEN (items g') = (count_status OPEN (items g) + 2)%nat ∧
   score g' = score g + 30) ∨
  (count_status OPEN (items g') = count_status OPEN (items g) ∧
   (score g' = score g ∨ score g' = score g - 10)).
Proof.
  intros Hpic.
  rewrite <- !(length_status_rows OPEN 0).
  pose proof (NoDup_status_rows OPEN 0 (items g)) as Hnd.
  pose proof (NoDup_status_rows OPEN 0 (items g')) as Hnd'.
  assert (∀ r, r ∈ status_rows OPEN 0 (items g) →
               r ∈ status_rows OPEN 0 (items g')) as Hkeep.
  { intros r (it & Hit & Hst)%elem_of_status_places.
    apply elem_of_status_places. exists it. split; [|done].
    by eapply open_pic_keeps_open. }
  assert (status_rows OPEN 0 (items g') ≡ₚ status_rows OPEN 0 (items g) →
          length (status_rows OPEN 0 (items g'))
          = length (status_rows OPEN 0 (items g))) as Hsame
    by (by intros ->).
  destruct (temp_opened_of (row, col) g) as [|p1 [|p2 rest]] eqn:Hsel.
  1,2: right; split;
    [apply Hsame, NoDup_Permutation; [done..|];
     intros r; split; [|by apply Hkeep];
     intros (it' & Hit' & Hst')%elem_of_status_places;
     apply elem_of_status_places;
     destruct (open_pic_new_open _ _ _ _ _ _ _ Hpic Hit' Hst')
       as [?|(? & ? & ? & ? & ? & Hsel' & _)]; [done|congruence]
    |left; apply (open_pic_single _ _ _ _ _ Hpic); rewrite Hsel; cbn; lia].
  destruct (open_pic_pair _ _ _ _ _ _ _ _ Hpic Hsel)
    as (i1 & i2 & H1 & H2 & Hne & Hp1 & Hp2 & Hsc). cbn zeta in Hp1, Hp2.
  destruct (decide (photoId i1 = photoId i2)) as [Heq|Hneq].
  - left. split; [|done].
    assert (∀ q, q ∈ temp_opened_of (row, col) g →
                 q ∉ status_rows OPEN 0 (items g)) as Hsel_not_open.
    { intros q (itq & Hitq & Hstq)%elem_of_temp_opened_of
               (it & Hit & Hst)%elem_of_status_places.
      rewrite get_item_marked in Hitq.
      destruct (open_pic_inr_inv _ _ _ _ _ Hpic) as (ita & Hita & Ho & _).
      destruct (decide ((row, col) = q)) as [Hq|Hq].
      - subst q. congruence.
      - rewrite decide_False in Hitq by done. congruence. }
    assert (status_rows OPEN 0 (items g')
            ≡ₚ p1 :: p2 :: status_rows OPEN 0 (items g)) as Hperm.
    { apply NoDup_Permutation; [done| |].
      - apply NoDup_cons. split.
        + rewrite elem_of_cons. intros [?|Hin]; [done|].
          apply (Hsel_not_open p1); [rewrite Hsel; set_solver|done].
        + apply NoDup_cons. split; [|done].
          apply Hsel_not_open. rewrite Hsel. set_solver.
      - intros r. rewrite !elem_of_cons. split.
        + intros (it' & Hit' & Hst')%elem_of_status_places.
          destruct (open_pic_new_open _ _ _ _ _ _ _ Hpic Hit' Hst')
            as [Hold|(q1 & q2 & rest' & ? & ? & Hsel' & Hin & _)].
          * right. right. by apply elem_of_status_places.
          * rewrite Hsel in Hsel'. injection Hsel' as <- <- _.
            destruct Hin; auto.
        + intros [->|[->|Hold]]; [..|by apply Hkeep];
            apply elem_of_status_places; eexists; split; done. }
    rewrite Hperm. cbn. lia.
  - right. split; [|right; done].
    apply Hsame, NoDup_Permutation; [done..|].
    intros r; split; [|by apply Hkeep].
    intros (it' & Hit' & Hst')%elem_of_status_places.
    apply elem_of_status_places.
    destruct (open_pic_new_open _ _ _ _ _ _ _ Hpic Hit' Hst')
      as [?|(q1 & q2 & rest' & j1 & j2 & Hsel' & _ & _ & Hj1 & Hj2 & Hjeq & _)];
      [done|].
    rewrite Hsel in Hsel'. injection Hsel' as <- <- _. congruence.
Qed.

Lemma run_score ops game g :
  heap (run ops empty_world) !! game = Some g →
  ∃ m k : nat,
    count_status OPEN (items g) = (2 * m)%nat ∧
    score g = 30 * Z.of_nat m - 10 * Z.of_nat k.
Proof.
  revert game g. induction ops as [|o ops IH] using rev_ind; intros game g.
  { cbn. by rewrite lookup_nil. }
  rewrite run_snoc. set (w := run ops empty_world) in *.
  destruct o as [tok now rnd|tok|row col tok|self]; cbn.
  - rewrite create_game_heap. cbn.
    intros [Hg|[_ Hg]]%lookup_app_Some; [by eapply IH|].
    apply list_lookup_singleton_Some in Hg as [_ <-].
    exists 0%nat, 0%nat. split; [|done].
    change (items (set_end_timer (Some 65) (new_GameWithExtras tok now rnd)))
      with (createItems rnd []).
    unfold count_status. rewrite createItems_concat.
    generalize (shuffle rnd photos0). intros l.
    induction l as [|x l IHl]; [done|]. cbn [fmap list_fmap].
    by rewrite filter_cons, decide_False.
  - unfold get_game_by_token. destruct (token2game w !! tok); apply IH.
  - destruct (open_game_pic_cases row col tok w)
      as [->|(game0 & g0 & g1 & b & g2 & _ & Hg0 & _ & _ & Hpic & -> & Hits & Hsc)];
      [apply IH|].
    intros [(-> & <- & _)|[_ Hg]]%list_lookup_insert_Some; [|by eapply IH].
    rewrite Hits, Hsc. destruct (IH _ _ Hg0) as (m & k & Hm & Hk).
    destruct (open_pic_accounting _ _ _ _ _ Hpic)
      as [[Hc Hs]|[Hc [Hs|Hs]]]; rewrite Hc, Hs, Hm, Hk.
    + exists (S m), k. split; lia.
    + exists m, k. split; lia.
    + exists m, (S k). split; lia.
  - unfold timer_fires, end_.
    destruct (heap w !! self) as [g0|] eqn:Hg0; [|apply IH].
    destruct (ended g0); [apply IH|].
    assert (<[self := set_ended_event true (set_ended true g0)]> (heap w)
              !! game = Some g →
            ∃ m k : nat, count_status OPEN (items g) = (2 * m)%nat ∧
                         score g = 30 * Z.of_nat m - 10 * Z.of_nat k) as Hins.
    { intros [(-> & <- & _)|[_ Hg]]%list_lookup_insert_Some;
        [exact (IH _ _ Hg0)|by eapply IH]. }
    cbn. by destruct (token2game w !! token g0).
Qed.

(** X14: the score is 30 points for each pair found less 10 points for
    each mismatch, as long as requests and timer events run one after the
    other, each to its end before the next begins: then the [OPEN] tiles of
    a session are [2 m] in number with [m] at most 8, and the score is
    [30 m - 10 k] for some number [k]; so the score is a multiple of 10 and
    does not exceed 240.  Calls that overlap are not covered: two of them
    can score one pair twice (section on threads). *)
Theorem X14_score_accounting ops game g :
  heap (run ops empty_world) !! game = Some g →
  ∃ m k : nat,
    count_status OPEN (items g) = (2 * m)%nat ∧ (m ≤ 8)%nat ∧
    score g = 30 * Z.of_nat m - 10 * Z.of_nat k ∧
    score g ≤ 240 ∧ (score g) mod 10 = 0.
Proof.
  intros Hg. destruct (run_score _ _ _ Hg) as (m & k & Hm & Hk).
  assert (m ≤ 8)%nat as Hle.
  { pose proof (run_boards_ok _ _ _ Hg) as [H16%is_4x4_length _].
    pose proof (length_filter (λ it, status it = OPEN) (concat (items g))).
    unfold count_status in Hm. lia. }
  exists m, k. split_and!; [done|done|done|lia|].
  rewrite Hk. replace (30 * Z.of_nat m - 10 * Z.of_nat k)
    with ((3 * Z.of_nat m - Z.of_nat k) * 10) by lia.
  apply Z_mod_mult.
Qed.

Lemma X14_score_accounting_witness :
  ∃ m k : nat,
    count_status OPEN (items (the_game w_last)) = (2 * m)%nat ∧
    score (the_game w_last) = 30 * Z.of_nat m - 10 * Z.of_nat k.
Proof.
  destruct (X14_score_accounting
              ([OpCreate "t" 0 demo_rnd] ++
               [OpOpen 0 0 "t"; OpOpen 2 0 "t"; OpOpen 0 1 "t"; OpOpen 2 1 "t";
                OpOpen 0 2 "t"; OpOpen 2 2 "t"; OpOpen 0 3 "t"; OpOpen 2 3 "t";
                OpOpen 1 0 "t"; OpOpen 3 0 "t"; OpOpen 1 1 "t"; OpOpen 3 1 "t";
                OpOpen 1 2 "t"; OpOpen 3 2 "t"; OpOpen 1 3 "t"])
              0%nat (the_game w_last)) as (m & k & Hm & _ & Hk & _).
  - vm_compute. reflexivity.
  - exists m, k. by split.
Defined.

(** ** Further properties: mismatches, expiry and responses *)

(** A tile that is [CLOSING] after the body is one of the two resolved
    tiles, whose ids differ. *)
Lemma open_pic_new_closing row col g g' b r it' :
  open_pic row col g = inr (g', b) →
  get_item (items g') r = Some it' → status it' = CLOSING →
  ∃ p1 p2 rest i1 i2,
    temp_opened_of (row, col) g = p1 :: p2 :: rest ∧ (r = p1 ∨ r = p2) ∧
    get_item (items g) p1 = Some i1 ∧ get_item (items g) p2 = Some i2 ∧
    photoId i1 ≠ photoId i2 ∧ score g' = score g - 10.
Proof.
  intros Hpic Hr Hst.
  destruct (decide (r ∈ resolved_pair (row, col) g)) as [Hin|Hout].
  - unfold resolved_pair in Hin.
    destruct (temp_opened_of (row, col) g) as [|p1 [|p2 rest]] eqn:Hsel;
      [by apply elem_of_nil in Hin..|].
    destruct (open_pic_pair _ _ _ _ _ _ _ _ Hpic Hsel)
      as (i1 & i2 & H1 & H2 & Hne & Hp1 & Hp2 & Hsc). cbn zeta in Hp1, Hp2.
    exists p1, p2, rest, i1, i2.
    rewrite !elem_of_cons in Hin.
    destruct (decide (photoId i1 = photoId i2)) as [Heq|Hneq].
    + exfalso. destruct Hin as [->|[->|[]%elem_of_nil]]; simplify_eq;
        discriminate Hst.
    + split_and!; try done.
      destruct Hin as [?|[?|[]%elem_of_nil]]; auto.
  - exfalso. rewrite (open_pic_other _ _ _ _ _ _ Hpic Hout) in Hr.
    destruct (get_item (marked (row, col) g) r) as [x|]; [|done].
    cbn in Hr. injection Hr as <-. unfold close_item in Hst.
    destruct (decide (status x = CLOSING)); [discriminate Hst|done].
Qed.

(** X16: after a reveal that returns, the tiles in status [CLOSING] are
    tiles this very call has mismatched: each is one of the two first
    entries of its selection, the two carry different ids, and the call has
    taken 10 points.  No older [CLOSING] tile survives a reveal that
    returns. *)
Theorem X16_closing_tiles_are_the_last_mismatch w tok game g row col it :
  session w tok game g →
  query_ok row = true → query_ok col = true →
  get_item (items g) (Z.to_nat row, Z.to_nat col) = Some it →
  status it ≠ OPEN → status it ≠ TEMP_OPEN →
  ∃ w' g',
    open_game_pic row col tok w = (inr game, w') ∧
    heap w' !! game = Some g' ∧
    ∀ r it', get_item (items g') r = Some it' → status it' = CLOSING →
      ∃ p1 p2 rest i1 i2,
        temp_opened_of (Z.to_nat row, Z.to_nat col) g = p1 :: p2 :: rest ∧
        (r = p1 ∨ r = p2) ∧
        get_item (items g) p1 = Some i1 ∧ get_item (items g) p2 = Some i2 ∧
        photoId i1 ≠ photoId i2 ∧ score g' = score g - 10.
Proof.
  intros Hs Hr Hc Hit Ho Ht.
  destruct (open_game_pic_result_any _ _ _ _ _ _ _ Hs Hr Hc Hit Ho Ht)
    as (g1 & b & w' & g' & Hpic & Hres & Hg' & Hits & Hsc).
  exists w', g'. split; [done|]. split; [done|].
  intros r it' Hr' Hst. rewrite Hits in Hr'. rewrite Hsc.
  by eapply open_pic_new_closing.
Qed.

Lemma X16_closing_tiles_are_the_last_mismatch_witness :
  ∃ w' g',
    open_game_pic 1 1 "t" w_mismatch = (inr 0%nat, w') ∧
    heap w' !! 0%nat = Some g'.
Proof.
  destruct (X16_closing_tiles_are_the_last_mismatch w_mismatch "t" 0%nat
              (the_game w_mismatch) 1 1 {| photoId := 5; status := CLOSED |})
    as (w' & g' & Hres & Hg' & _).
  - unfold session. vm_compute. auto.
  - reflexivity.
  - reflexivity.
  - vm_compute. reflexivity.
  - discriminate.
  - discriminate.
  - exists w', g'. split; assumption.
Defined.

(** X18: expiry, when requests and timer events run one after the other,
    each to its end before the next begins.  With pairwise distinct tokens,
    when the timer of a session object that has not ended fires, [end]
    returns normally; the object is ended with its board and score as they
    were; and [get_game_by_token] and [open_game_pic] with its token raise
    the 404 error, at once and after any further such steps that do not
    draw the token again.  A reveal that is in flight when the timer fires
    is not covered. *)
Theorem X18_timer_expires_session ops self g :
  NoDup (created_tokens ops) →
  heap (run ops empty_world) !! self = Some g → ended g = false →
  ∃ w' g',
    timer_fires self (run ops empty_world) = (inr (), w') ∧
    heap w' !! self = Some g' ∧ ended g' = true ∧
    items g' = items g ∧ score g' = score g ∧
    ∀ ops' row col,
      token g ∉ created_tokens ops' →
      get_game_by_token (token g) (run ops' w')
      = (inl NotFound, run ops' w') ∧
      open_game_pic row col (token g) (run ops' w')
      = (inl NotFound, run ops' w').
Proof.
  intros Hnd Hg He. set (w := run ops empty_world) in *.
  pose proof (run_live ops Hnd _ _ Hg He) as Hreg. fold w in Hreg.
  assert (session w (token g) self g) as Hs by by split_and!.
  unfold timer_fires. rewrite (end_session _ _ _ _ Hs He).
  eexists _, _. split; [done|]. cbn [heap].
  rewrite list_lookup_insert_eq by (by eapply lookup_lt_Some).
  split; [done|]. split_and!; try done.
  intros ops' row col Hfresh.
  assert (token2game
            (run ops'
               {| heap := <[self := set_ended_event true (set_ended true g)]>
                            (heap w);
                  token2game := delete (token g) (token2game w) |})
            !! token g = None) as Hnone.
  { apply run_registry; [done|]. apply lookup_delete_eq. }
  unfold open_game_pic, get_game_by_token. by rewrite Hnone.
Qed.

Lemma X18_timer_expires_session_witness :
  ∃ w' g',
    timer_fires 0%nat w_mismatch = (inr (), w') ∧
    heap w' !! 0%nat = Some g' ∧ ended g' = true.
Proof.
  destruct (X18_timer_expires_session
              [OpCreate "t" 0 demo_rnd; OpOpen 0 0 "t"; OpOpen 0 1 "t"]
              0%nat (the_game w_mismatch))
    as (w' & g' & Hres & Hg' & He & _).
  - cbn. apply NoDup_singleton.
  - vm_compute. reflexivity.
  - reflexivity.
  - exists w', g'. split; [assumption|]. split; assumption.
Defined.

(** ** Further properties: threads under every schedule *)

Lemma board_ok_set_status s p its : board_ok its → board_ok (set_status s p its).
Proof.
  unfold board_ok, is_4x4. intros [H4 Hp].
  by rewrite photo_grid_set_status, length_set_status.
Qed.

Lemma board_ok_scan its : board_ok its → board_ok (scan its).1.
Proof.
  unfold board_ok, is_4x4. intros [H4 Hp]. rewrite scan_eq. cbn [fst].
  by rewrite photo_grid_close, length_close.
Qed.

Lemma obj_ok_resolve p1 p2 g : obj_ok g → obj_ok (resolve p1 p2 g).
Proof.
  intros [Hb Hs]. unfold resolve.
  destruct (get_item (items g) p1) as [item1|]; [|by split].
  destruct (get_item (items g) p2) as [item2|]; [|by split].
  destruct (decide (photoId item1 = photoId item2)).
  - split.
    + by apply board_ok_set_status, board_ok_set_status.
    + change ((score g + 30) mod 10 = 0). revert Hs.
      Z.div_mod_to_equations. lia.
  - split.
    + by apply board_ok_set_status, board_ok_set_status.
    + change ((score g - 10) mod 10 = 0). revert Hs.
      Z.div_mod_to_equations. lia.
Qed.

Lemma heap_ok_update self g w :
  heap_ok w → obj_ok g → heap_ok (update_obj self g w).
Proof.
  intros Hw Hg game g0. unfold update_obj. cbn [heap].
  intros [(_ & <- & _)|[_ H]]%list_lookup_insert_Some; [done|by eapply Hw].
Qed.

(** No stretch of any thread changes the shape of a board or the id of a
    tile, and the score moves by 30 or by 10. *)
Lemma tstep_heap_ok t w : heap_ok w → heap_ok (tstep t w).2.
Proof.
  intros Hw.
  destruct t as [tok now rnd|tok|row col tok|row col game|game|game temp|game
                |self ret|self ret|self ret|r]; cbn [tstep].
  - rewrite create_game_heap. cbn [snd]. intros game g. cbn [heap].
    intros [H|[_ H]]%lookup_app_Some; [by eapply Hw|].
    apply list_lookup_singleton_Some in H as [_ <-].
    split; [apply board_ok_new|reflexivity].
  - unfold get_game_by_token. by destruct (token2game w !! tok).
  - unfold get_game_by_token. destruct (token2game w !! tok); [|done].
    by destruct (negb _).
  - unfold on_obj. destruct (heap w !! game) as [g|] eqn:Hg; [|done].
    destruct (get_item (items g) (row, col)) as [it|]; [|done].
    destruct (decide _); [done|]. cbn [snd].
    destruct (Hw _ _ Hg) as [Hb Hs].
    apply heap_ok_update; [done|]. split; [|done].
    by apply board_ok_set_status.
  - unfold on_obj. destruct (heap w !! game) as [g|] eqn:Hg; [|done].
    destruct (Hw _ _ Hg) as [Hb Hs].
    pose proof (board_ok_scan _ Hb) as Hscan.
    destruct (scan (items g)) as [scanned temp]. cbn [snd].
    apply heap_ok_update; [done|]. by split.
  - destruct temp as [|p1 [|p2 rest]]; [done..|].
    unfold on_obj. destruct (heap w !! game) as [g|] eqn:Hg; [|done].
    cbn [snd]. apply heap_ok_update; [done|].
    apply obj_ok_resolve. by eapply Hw.
  - unfold on_obj. destruct (heap w !! game) as [g|]; [|done].
    by destruct (bool_decide _).
  - unfold on_obj. destruct (heap w !! self) as [g|]; [|done].
    by destruct (ended g).
  - unfold on_obj. destruct (heap w !! self) as [g|] eqn:Hg; [|done].
    cbn [snd]. apply heap_ok_update; [done|]. exact (Hw _ _ Hg).
  - unfold on_obj. destruct (heap w !! self) as [g|]; [|done].
    by destruct (token2game w !! token g).
  - done.
Qed.

Lemma run_sched_heap_ok sched σ : heap_ok σ.2 → heap_ok (run_sched sched σ).2.
Proof.
  intros Hw. induction sched as [|i sched IH] using rev_ind; [done|].
  rewrite run_sched_app. set (σ' := run_sched sched σ) in *.
  unfold run_sched. cbn [foldl]. unfold sched_step.
  destruct (σ'.1 !! i) as [t|]; [|done].
  pose proof (tstep_heap_ok t σ'.2 IH) as Hstep.
  by destruct (tstep t σ'.2) as [t' w'].
Qed.

(** X19: the board under every schedule.  Let any requests and timers run
    as threads from the start of the process, their stretches interleaved in
    any way.  Then every session object has, at every moment, a board of
    four rows of four tiles on which each id from 0 to 7 occurs twice and
    no other id occurs, and a score that is a multiple of ten. *)
Theorem X19_boards_under_every_schedule ops sched game g :
  heap (run_sched sched (thread_of <$> ops, empty_world)).2 !! game = Some g →
  is_4x4 (items g) ∧
  (∀ v, occurrences v (items g) = if decide (0 ≤ v < 8) then 2%nat else 0%nat) ∧
  (score g) mod 10 = 0.
Proof.
  intros Hg.
  assert (heap_ok empty_world) as H0.
  { intros game0 g0. cbn. by rewrite lookup_nil. }
  destruct (run_sched_heap_ok sched (thread_of <$> ops, empty_world) H0 _ _ Hg)
    as [Hb Hs].
  split_and!; [by destruct Hb| |done].
  intros v. by apply board_ok_occurrences.
Qed.

Lemma X19_boards_under_every_schedule_witness :
  is_4x4 (items (the_game
    (run_sched [0; 1; 2; 1; 2; 1; 2; 1; 2; 1; 2]%nat
       (thread_of <$> [OpCreate "t" 0 demo_rnd; OpOpen 0 0 "t"; OpOpen 2 0 "t"],
        empty_world)).2)) ∧
  score (the_game
    (run_sched [0; 1; 2; 1; 2; 1; 2; 1; 2; 1; 2]%nat
       (thread_of <$> [OpCreate "t" 0 demo_rnd; OpOpen 0 0 "t"; OpOpen 2 0 "t"],
        empty_world)).2) mod 10 = 0.
Proof.
  set (σ := run_sched [0; 1; 2; 1; 2; 1; 2; 1; 2; 1; 2]%nat
       (thread_of <$> [OpCreate "t" 0 demo_rnd; OpOpen 0 0 "t"; OpOpen 2 0 "t"],
        empty_world)).
  assert (heap σ.2 !! 0%nat = Some (the_game σ.2)) as Hg
    by (vm_compute; reflexivity).
  destruct (X19_boards_under_every_schedule
              [OpCreate "t" 0 demo_rnd; OpOpen 0 0 "t"; OpOpen 2 0 "t"]
              [0; 1; 2; 1; 2; 1; 2; 1; 2; 1; 2]%nat 0%nat (the_game σ.2) Hg)
    as (H4 & _ & Hs).
  split; assumption.
Defined.
